(** * S2: graph-based active learning (s2.py), embedded and verified

    The development follows [src/s2.py]: the three leaf procedures
    [find_obvious_cuts], [find_ssp] and [find_mssp], and the query loop [s2].

    - A networkx graph (the code uses the API of networkx 1.x: [G.node],
      [nodes_iter], [edges_iter]) is a record of its two dictionaries, [node]
      (vertex to attribute dictionary, of which only the entry ['label'] is
      ever read or written) and [adj] (vertex to neighbour dictionary).  Both
      are finite maps; their iteration order is the one of [map_to_list],
      arbitrary but fixed, as the order of a hash-based dictionary is.
    - A label is a [bool], as the docstring of [s2] has the oracle return.
    - Graphs and Python lists are mutable objects: they live in a [heap] and
      are passed by reference.  Code runs in the monad [M], which threads the
      heap and propagates exceptions.
    - The oracle is a function [V -> bool], the same answer at every call on
      a vertex; the shortest-path collaborator is a function of the graph
      value and two vertices that returns a path, returns [None], or raises;
      [random.choice] draws from an explicit stream of numbers.
    - The two nested [while True] loops of [s2] are a transition function
      [step] on configurations, iterated with fuel.

    The file has the embedding first, then small graphs to run it on, then
    the properties: of the graph operations, of the three procedures, and of
    the runs of [s2]. *)

From stdpp Require Import gmap list.

(** ** Exceptions and outcomes *)

Inductive exn : Type :=
  | KeyError
  | IndexError
  | TypeError
  | ValueError
  | NetworkXNoPath.

#[global] Instance exn_eq_dec : EqDecision exn.
Proof. solve_decision. Defined.

Inductive outcome (A : Type) : Type :=
  | Return (a : A)
  | Raise (e : exn)
  | OutOfFuel.
Arguments Return {A} a.
Arguments Raise {A} e.
Arguments OutOfFuel {A}.

#[global] Instance outcome_ret : MRet outcome := λ A a, Return a.
#[global] Instance outcome_bind : MBind outcome := λ A B f m,
  match m with
  | Return a => f a
  | Raise e => Raise e
  | OutOfFuel => OutOfFuel
  end.

(** [itertools.combinations(xs, r=2)]: the pairs [(xs[i], xs[j])], [i < j],
    in lexicographic order of [(i, j)]. *)
Fixpoint combinations2 {A : Type} (xs : list A) : list (A * A) :=
  match xs with
  | [] => []
  | x :: rest => (pair x <$> rest) ++ combinations2 rest
  end.

(** [random.choice(seq)] on the draw [r]: an element of [seq], [IndexError]
    on the empty sequence. *)
Definition choice {A : Type} (r : nat) (seq : list A) : outcome A :=
  match seq !! (r `mod` length seq) with
  | Some x => Return x
  | None => Raise IndexError
  end.

Section S2.
Context `{Countable V}.

(** ** Graphs (networkx 1.x [Graph]) *)

Record Graph : Type := MkGraph {
  node : gmap V (option bool);   (* G.node[v].get('label') *)
  adj : gmap V (gset V)          (* G.adj[v] *)
}.

Definition edge : Type := V * V.

Definition empty_graph : Graph := MkGraph ∅ ∅.

(** networkx keeps [node] and [adj] on the same keys and [adj] symmetric. *)
Definition neighbors (g : Graph) (u : V) : gset V := default ∅ (adj g !! u).

Definition wf_graph (g : Graph) : Prop :=
  dom (adj g) = dom (node g) ∧
  map_Forall (λ u ns, set_Forall (λ v, u ∈ neighbors g v) ns) (adj g).

#[global] Instance wf_graph_dec g : Decision (wf_graph g).
Proof. unfold wf_graph. apply _. Defined.

(** [G.order()] and [G.nodes()]. *)
Definition order (g : Graph) : nat := size (node g).
Definition nodes (g : Graph) : list V := (map_to_list (node g)).*1.

(** [G.node[v]['label']]: [KeyError] when [v] is no vertex of [G] or carries
    no label. *)
Definition getitem_label (g : Graph) (v : V) : outcome bool :=
  match node g !! v with
  | Some (Some y) => Return y
  | _ => Raise KeyError
  end.

(** [G.node[v]['label'] = y]: [KeyError] when [v] is no vertex of [G]. *)
Definition setitem_label (g : Graph) (v : V) (y : bool) : outcome Graph :=
  match node g !! v with
  | Some _ => Return (MkGraph (<[v := Some y]> (node g)) (adj g))
  | None => Raise KeyError
  end.

(** [G.subgraph(nbunch)]: the subgraph induced by the vertices of [nbunch]
    that are in [G]; vertices of [nbunch] outside [G] are ignored.  (networkx
    builds it vertex by vertex, entering an edge at both of its ends; on a
    graph with a symmetric [adj] that is the map below.) *)
Definition subgraph (g : Graph) (nbunch : list V) : Graph :=
  MkGraph
    (filter (λ kv, kv.1 ∈ nbunch) (node g))
    ((λ ns : gset V, filter (λ v, v ∈ nbunch) ns)
       <$> filter (λ kv, kv.1 ∈ nbunch) (adj g)).

(** [G.edges_iter()]: every vertex in turn with its neighbours, an edge being
    reported from its first endpoint in that order only ([seen] holds the
    vertices already done). *)
Fixpoint edges_from (seen : gset V) (items : list (V * gset V)) : list edge :=
  match items with
  | [] => []
  | (n, nbrs) :: rest =>
      (pair n <$> filter (λ nbr, nbr ∉ seen) (elements nbrs))
        ++ edges_from ({[n]} ∪ seen) rest
  end.

Definition edges_iter (g : Graph) : list edge :=
  edges_from ∅ (map_to_list (adj g)).

(** [G.remove_edges_from(ebunch)]: an edge that is not in [G] is skipped, one
    that is loses both of its entries in [adj]. *)
Definition remove_edge (g : Graph) (e : edge) : Graph :=
  if decide (e.2 ∈ neighbors g e.1) then
    MkGraph (node g)
      (alter (λ ns, ns ∖ {[e.1]}) e.2 (alter (λ ns, ns ∖ {[e.2]}) e.1 (adj g)))
  else g.

Definition remove_edges_from (g : Graph) (ebunch : list edge) : Graph :=
  foldl remove_edge g ebunch.

(** The vertices that carry a label, as the scan of [find_obvious_cuts]
    finds them: [v[0] for v in G.nodes_iter(data=True)
    if v[1].get('label') is not None]. *)
Definition labeled_scan (g : Graph) : list V :=
  (filter (λ kv, is_Some kv.2) (map_to_list (node g))).*1.

(** A vertex carries a label; two vertices carry different labels. *)
Definition labeled (g : Graph) (v : V) : Prop :=
  ∃ b : bool, node g !! v = Some (Some b).
Definition discordant (g : Graph) (u v : V) : Prop :=
  ∃ a b : bool,
    node g !! u = Some (Some a) ∧ node g !! v = Some (Some b) ∧ a ≠ b.

(** An edge is in a list of edges, whichever way round it is written. *)
Definition has_edge (es : list edge) (u v : V) : Prop :=
  (u, v) ∈ es ∨ (v, u) ∈ es.

#[global] Instance labeled_dec g v : Decision (labeled g v).
Proof.
  unfold labeled. destruct (node g !! v) as [[b|]|].
  - left. by exists b.
  - right. by intros [? ?].
  - right. by intros [? ?].
Defined.

#[global] Instance discordant_dec g u v : Decision (discordant g u v).
Proof.
  unfold discordant.
  destruct (node g !! u) as [[a|]|]; [|right; by intros (? & ? & ? & ? & ?)..].
  destruct (node g !! v) as [[b|]|]; [|right; by intros (? & ? & ? & ? & ?)..].
  destruct (decide (a = b)) as [->|Hab].
  - right. intros (? & ? & ? & ? & ?). congruence.
  - left. by exists a, b.
Defined.

(** [networkx.shortest_path(G, u, v)], the collaborator that the
    demonstration passes to [s2]: a path of least length from [u] to [v],
    found by exhaustive search to the depth [G.order()], and the exception
    [NetworkXNoPath] when there is none. *)
Definition shortest (ps : list (list V)) : option (list V) :=
  foldr (λ p best,
           match best with
           | Some q => if length p <=? length q then Some p else Some q
           | None => Some p
           end) None ps.

Fixpoint search (depth : nat) (g : Graph) (u v : V) : option (list V) :=
  if decide (u = v) then Some [u] else
  match depth with
  | 0 => None
  | S depth' =>
      match shortest (omap (λ w, search depth' g w v) (elements (neighbors g u))) with
      | Some p => Some (u :: p)
      | None => None
      end
  end.

Definition nx_shortest_path (g : Graph) (u v : V) : outcome (option (list V)) :=
  match search (order g) g u v with
  | Some p => Return (Some p)
  | None => Raise NetworkXNoPath
  end.

(** The collaborator as the docstring of [s2] describes it: a path, "or None
    if one cannot be found". *)
Definition none_shortest_path (g : Graph) (u v : V) : outcome (option (list V)) :=
  match search (order g) g u v with
  | Some p => Return (Some p)
  | None => Return None
  end.

(** ** The heap and the monad *)

Definition labeled_set : Type := list (V * bool).

Record heap : Type := Heap {
  graphs : list Graph;
  lists : list labeled_set
}.

Definition gref : Type := nat.
Definition lref : Type := nat.

Definition M (A : Type) : Type := heap → outcome (A * heap).

#[global] Instance M_ret : MRet M := λ A a h, Return (a, h).
#[global] Instance M_bind : MBind M := λ A B f m h,
  match m h with
  | Return (a, h') => f a h'
  | Raise e => Raise e
  | OutOfFuel => OutOfFuel
  end.

Definition lift {A : Type} (o : outcome A) : M A := λ h,
  match o with
  | Return a => Return (a, h)
  | Raise e => Raise e
  | OutOfFuel => OutOfFuel
  end.

Definition graph_at (h : heap) (r : gref) : Graph :=
  default empty_graph (graphs h !! r).
Definition list_at (h : heap) (r : lref) : labeled_set :=
  default [] (lists h !! r).

Definition new_graph (g : Graph) : M gref := λ h,
  Return (length (graphs h), Heap (graphs h ++ [g]) (lists h)).
Definition get_graph (r : gref) : M Graph := λ h, Return (graph_at h r, h).
Definition put_graph (r : gref) (g : Graph) : M unit := λ h,
  Return (tt, Heap (<[r := g]> (graphs h)) (lists h)).

Definition new_list (l : labeled_set) : M lref := λ h,
  Return (length (lists h), Heap (graphs h) (lists h ++ [l])).
Definition get_list (r : lref) : M labeled_set := λ h, Return (list_at h r, h).
(** [L.append(x)] *)
Definition append (r : lref) (x : V * bool) : M unit := λ h,
  Return (tt, Heap (graphs h) (<[r := list_at h r ++ [x]]> (lists h))).

(** [G.copy()]: a deep copy, a new object. *)
Definition copy (G : gref) : M gref := g ← get_graph G; new_graph g.

(** ** find_obvious_cuts *)

(** The loop over [labeled_subgraph.edges_iter()], [cuts] being the list
    built so far. *)
Fixpoint cut_loop (g : Graph) (es : list edge) (cuts : list edge)
    : outcome (list edge) :=
  match es with
  | [] => Return cuts
  | e :: es' =>
      a ← getitem_label g e.1;
      b ← getitem_label g e.2;
      cut_loop g es' (if bool_decide (a ≠ b) then cuts ++ [e] else cuts)
  end.

Definition find_obvious_cuts (G : gref) (L : option lref) : M (list edge) :=
  g ← get_graph G;
  labeled_nodes ← match L with
                   | None => mret (labeled_scan g)
                   | Some L => l ← get_list L; mret (l.*1)
                   end;
  labeled_subgraph ← new_graph (subgraph g labeled_nodes);
  sub ← get_graph labeled_subgraph;
  lift (cut_loop g (edges_iter sub) []).

(** The vertices whose induced subgraph [find_obvious_cuts] searches. *)
Definition cut_nodes (h : heap) (G : gref) (L : option lref) : list V :=
  match L with
  | None => labeled_scan (graph_at h G)
  | Some L => (list_at h L).*1
  end.

(** ** find_ssp and find_mssp *)

Section Search.
(** [shortest_path(G, u, v)]: [Return (Some P)] is a path, [Return None] the
    value [None], [Raise NetworkXNoPath] the exception that [find_ssp]
    catches. *)
Variable shortest_path : Graph → V → V → outcome (option (list V)).

(** The loop over the pairs, [paths] being the list built so far. *)
Fixpoint path_loop (g : Graph) (pairs : list (V * V))
    (paths : list (option (list V))) : outcome (list (option (list V))) :=
  match pairs with
  | [] => Return paths
  | (u, v) :: rest =>
      a ← getitem_label g u;
      b ← getitem_label g v;
      if bool_decide (a ≠ b) then
        match shortest_path g u v with
        | Return P => path_loop g rest (paths ++ [P])
        | Raise NetworkXNoPath => path_loop g rest paths
        | Raise e => Raise e
        | OutOfFuel => OutOfFuel
        end
      else path_loop g rest paths
  end.

(** [len(path)]: a [TypeError] on [None]. *)
Definition len (P : option (list V)) : outcome nat :=
  match P with
  | Some p => Return (length p)
  | None => Raise TypeError
  end.

(** [min(paths, key=lambda path: len(path))]: the first element of least
    key; the key of every element is computed. *)
Fixpoint min_loop (best : option (list V)) (best_key : nat)
    (rest : list (option (list V))) : outcome (option (list V)) :=
  match rest with
  | [] => Return best
  | P :: rest' =>
      k ← len P;
      if k <? best_key then min_loop P k rest' else min_loop best best_key rest'
  end.

Definition min_by_len (paths : list (option (list V)))
    : outcome (option (list V)) :=
  match paths with
  | [] => Raise ValueError
  | P :: rest => k ← len P; min_loop P k rest
  end.

Definition find_ssp (G : gref) (L : lref) : M (option (list V)) :=
  l ← get_list L;
  g ← get_graph G;
  paths ← lift (path_loop g (combinations2 (l.*1)) []);
  match paths with
  | [] => mret None
  | _ => lift (min_by_len paths)
  end.

Definition find_mssp (G : gref) (L : lref) : M (option V) :=
  ssp ← find_ssp G L;
  match ssp with
  | None => mret None
  | Some p =>
      match p !! (length p `div` 2) with
      | Some v => mret (Some v)
      | None => lift (Raise IndexError)
      end
  end.

(** ** The query loop *)

Variable oracle : V → bool.
(** [rng k] is the [k]-th draw of the random source. *)
Variable rng : nat → nat.

(** Where control is: at the head of the outer loop, at the head of the inner
    loop with the vertex to query, or past the outer loop. *)
Inductive pc : Type :=
  | Outer
  | Inner (vert : V)
  | Exit.

#[global] Instance pc_eq_dec : EqDecision pc.
Proof. solve_decision. Defined.

Record config : Type := Config {
  at_pc : pc;
  cG : gref;          (* G, the working copy *)
  cL : lref;          (* L *)
  cn : nat;           (* n *)
  draws : nat;        (* number of calls of random.choice so far *)
  asked : list V      (* the vertices the oracle was called on, in order *)
}.

(** Lines 48-61: one pass of the inner loop from [vert]; the result is the
    next value of [vert]. *)
Definition query (G : gref) (L : lref) (vert : V) : M (option V) :=
  let y := oracle vert in
  _ ← append L (vert, y);
  g ← get_graph G;
  g' ← lift (setitem_label g vert y);
  _ ← put_graph G g';
  cuts ← find_obvious_cuts G (Some L);
  g ← get_graph G;
  _ ← put_graph G (remove_edges_from g cuts);
  find_mssp G L.

Definition step (c : config) : M config :=
  match at_pc c with
  | Outer =>
      l ← get_list (cL c);
      if decide (length l = cn c) then
        mret (Config Exit (cG c) (cL c) (cn c) (draws c) (asked c))
      else
        g ← get_graph (cG c);
        vert ← lift (choice (rng (draws c)) (nodes g));
        mret (Config (Inner vert) (cG c) (cL c) (cn c) (S (draws c)) (asked c))
  | Inner vert =>
      next ← query (cG c) (cL c) vert;
      mret (Config (match next with Some v => Inner v | None => Outer end)
              (cG c) (cL c) (cn c) (draws c) (asked c ++ [vert]))
  | Exit => mret c
  end.

Fixpoint steps (k : nat) (c : config) : M config :=
  match k with
  | 0 => mret c
  | S k' => c' ← step c; steps k' c'
  end.

Fixpoint loop (fuel : nat) (c : config) : M config :=
  match at_pc c with
  | Exit => mret c
  | _ =>
      match fuel with
      | 0 => λ _, OutOfFuel
      | S fuel' => c' ← step c; loop fuel' c'
      end
  end.

(** Lines 32-38: the copy, [n] and the empty [L]. *)
Definition start (G : gref) : M config :=
  G' ← copy G;
  g ← get_graph G';
  L ← new_list [];
  mret (Config Outer G' L (order g) 0 []).

(** [s2(G, oracle, shortest_path)]: the reference of the returned graph. *)
Definition s2 (fuel : nat) (G : gref) : M gref :=
  c ← start G;
  c' ← loop fuel c;
  mret (cG c').

(** *** What the procedures are to compute *)

(** The result of cut inference on the graph [g] and the labeled set [l]: the
    edges of [g] between two vertices listed in [l] that carry different
    labels. *)
Definition cut_edge_set (g : Graph) (l : labeled_set) (cuts : list edge) : Prop :=
  ∀ u v, has_edge cuts u v ↔
         v ∈ neighbors g u ∧ u ∈ l.*1 ∧ v ∈ l.*1 ∧ discordant g u v.

(** The objects of [h] are in [h'], unchanged. *)
Definition heap_frame (h h' : heap) : Prop :=
  graphs h `prefix_of` graphs h' ∧ lists h `prefix_of` lists h'.

Definition find_obvious_cuts_spec (G : gref) (L : lref) (h : heap) : Prop :=
  ∃ cuts h',
    find_obvious_cuts G (Some L) h = Return (cuts, h') ∧
    cut_edge_set (graph_at h G) (list_at h L) cuts ∧
    heap_frame h h'.

(** The shortest-path function answers with a path or with the exception
    [NetworkXNoPath]. *)
Definition path_or_no_path (o : outcome (option (list V))) : Prop :=
  match o with
  | Return (Some _) => True
  | Raise NetworkXNoPath => True
  | _ => False
  end.

#[global] Instance path_or_no_path_dec o : Decision (path_or_no_path o).
Proof.
  unfold path_or_no_path. destruct o as [[p|]|[]|]; apply _.
Defined.

(** The paths of the discordant pairs of [ns], in the order of the pairs. *)
Definition candidate (g : Graph) (uv : V * V) : option (list V) :=
  if decide (discordant g uv.1 uv.2) then
    match shortest_path g uv.1 uv.2 with
    | Return (Some p) => Some p
    | _ => None
    end
  else None.

Definition candidates (g : Graph) (ns : list V) : list (list V) :=
  omap (candidate g) (combinations2 ns).

(** [r] is the first of the shortest paths of [ps], [None] when [ps] is
    empty. *)
Definition first_shortest (ps : list (list V)) (r : option (list V)) : Prop :=
  match r with
  | None => ps = []
  | Some p =>
      ∃ pre post, ps = pre ++ p :: post ∧
                  Forall (λ q, length p < length q) pre ∧
                  Forall (λ q, length p ≤ length q) post
  end.

Definition find_ssp_spec (G : gref) (L : lref) (h : heap) : Prop :=
  ∃ r, find_ssp G L h = Return (r, h) ∧
       first_shortest (candidates (graph_at h G) (list_at h L).*1) r.

(** The labeled set and the label attributes of the working graph say the
    same. *)
Definition consistent (g : Graph) (l : labeled_set) : Prop :=
  (∀ v b, (v, b) ∈ l → node g !! v = Some (Some b)) ∧
  (∀ v, labeled g v → v ∈ l.*1).

(** The label attributes of [g] are the entries of [l], in a form that can
    be decided. *)
Definition listed (l : labeled_set) (v : V) (a : option bool) : Prop :=
  ∀ b, a = Some b → (v, b) ∈ l.

#[global] Instance listed_dec l v a : Decision (listed l v a).
Proof.
  unfold listed. destruct a as [b|].
  - destruct (decide ((v, b) ∈ l)) as [Hin|Hout].
    + left. by intros ? [= <-].
    + right. intros Hall. by apply Hout, Hall.
  - left. by intros ? [=].
Defined.

Definition labels_agree (g : Graph) (l : labeled_set) : Prop :=
  Forall (λ vb, node g !! vb.1 = Some (Some vb.2)) l ∧
  map_Forall (listed l) (node g).

(** The configuration after [k] transitions of a run on the graph [G]. *)
Definition run_to (k : nat) (G : gref) : M config :=
  c ← start G;
  steps k c.

(** The working graph and the labeled set of a configuration. *)
Definition working (c : config) (h : heap) : Graph := graph_at h (cG c).
Definition labels_of (c : config) (h : heap) : labeled_set := list_at h (cL c).

(** [G] and [L] are objects of the heap. *)
Definition valid (c : config) (h : heap) : Prop :=
  cG c < length (graphs h) ∧ cL c < length (lists h).

(** The run is past [len(L) == n] for good: [L] is longer than [n]. *)
Definition overshot (c : config) (h : heap) : Prop :=
  valid c h ∧ at_pc c ≠ Exit ∧ cn c < length (labels_of c h).

(** A bound on the number of transitions that lead to a configuration that
    is not the exit: two for each query, one more inside the inner loop. *)
Definition progress (c : config) : nat :=
  2 * length (asked c) + match at_pc c with Inner _ => 1 | _ => 0 end.

(** What holds of every configuration of a run started in the heap [h0] on
    the graph [Gin]: the objects of [h0] are as they were, [G] and [L] are the
    two objects allocated at the start, the working graph has the vertices of
    the input graph and a part of its edges, a missing edge joins two queried
    vertices that the oracle tells apart, every entry of [L] is the oracle's
    answer and is recorded on the working graph, and [L] lists the queries
    in order. *)
Definition inv (h0 : heap) (Gin : gref) (c : config) (h : heap) : Prop :=
  let g0 := graph_at h0 Gin in
  let gw := working c h in
  let l := labels_of c h in
  Gin < length (graphs h0) ∧
  cG c = length (graphs h0) ∧ cL c = length (lists h0) ∧
  take (length (graphs h0)) (graphs h) = graphs h0 ∧
  take (length (lists h0)) (lists h) = lists h0 ∧
  valid c h ∧
  cn c = order g0 ∧
  dom (node gw) = dom (node g0) ∧
  dom (adj gw) = dom (adj g0) ∧
  (∀ u v, v ∈ neighbors gw u → v ∈ neighbors g0 u) ∧
  (∀ u v, v ∈ neighbors g0 u → v ∉ neighbors gw u →
     u ∈ l.*1 ∧ v ∈ l.*1 ∧ oracle u ≠ oracle v) ∧
  (∀ v b, (v, b) ∈ l → b = oracle v ∧ node gw !! v = Some (Some b)) ∧
  (∀ v b, node gw !! v = Some (Some b) →
     v ∈ l.*1 ∨ node g0 !! v = Some (Some b)) ∧
  asked c = l.*1.

End Search.
End S2.

Arguments Graph V {_ _}.
Arguments edge V : clear implicits.
Arguments labeled_set V : clear implicits.
Arguments heap V {_ _}.
Arguments M V {_ _} A.
Arguments pc V : clear implicits.
Arguments config V : clear implicits.

Arguments path_or_no_path {V} o.

(** ** Walks and shortest-path functions *)

Section Paths.
Context `{Countable V}.


(** Each vertex of [p] is a neighbour of the one before it. *)
Fixpoint is_walk (g : Graph V) (p : list V) : Prop :=
  match p with
  | a :: (b :: _) as rest => b ∈ neighbors g a ∧ is_walk g rest
  | _ => True
  end.

(** [p] is a path of [g] from [u] to [v], as a list of vertices. *)
Definition path_from_to (g : Graph V) (u v : V) (p : list V) : Prop :=
  head p = Some u ∧ last p = Some v ∧ is_walk g p.

(** What [s2] expects of [shortest_path] on the graph [g]: for two vertices
    [u] and [v] of [g], a path of [g] from [u] to [v] with the least number of
    vertices, and the exception [NetworkXNoPath] when there is no path. *)
Definition shortest_path_on
    (shortest_path : Graph V → V → V → outcome (option (list V)))
    (g : Graph V) : Prop :=
  ∀ u v, u ∈ dom (node g) → v ∈ dom (node g) →
    match shortest_path g u v with
    | Return (Some p) =>
        path_from_to g u v p ∧ ∀ q, path_from_to g u v q → length p ≤ length q
    | Raise NetworkXNoPath => ∀ q, ¬ path_from_to g u v q
    | _ => False
    end.

(** The shortest-path function returns a value, a path or [None], or raises
    [NetworkXNoPath]. *)
Definition answers (o : outcome (option (list V))) : Prop :=
  match o with
  | Return _ => True
  | Raise NetworkXNoPath => True
  | _ => False
  end.

#[global] Instance answers_dec o : Decision (answers o).
Proof. unfold answers. destruct o as [P|[]|]; apply _. Defined.

(** The queries of a configuration are of different vertices, and the vertex
    to query next, if there is one, is a vertex of the working graph that was
    not queried. *)
Definition fresh_target (c : config V) (h : heap V) : Prop :=
  NoDup (asked c) ∧
  ∀ vert, at_pc c = Inner vert →
          (vert ∉ asked c) ∧ vert ∈ dom (node (working c h)).

(** No edge of [g] joins two vertices listed in [l] that carry different
    label attributes. *)
Definition cut_free (g : Graph V) (l : labeled_set V) : Prop :=
  ∀ u v, u ∈ l.*1 → v ∈ l.*1 → v ∈ neighbors g u → ¬ discordant g u v.

End Paths.

Arguments answers {V} o.

(** ** Small graphs on the vertices 0, 1, 2, ... *)

(** The path graph 0 - 1 - ... - (n-1) with the given label attributes. *)
Definition line (labels : list (option bool)) : Graph nat :=
  MkGraph (list_to_map (imap (λ i a, (i, a)) labels))
    (list_to_map (imap (λ i _,
       (i, list_to_set (filter (λ j, j < length labels)
                          (match i with 0 => [1] | S j => [j; S i] end))))
       labels)).

(** The graph 0 - 1 - 2, no vertex labeled, as the only object of the heap. *)
Definition line3 : Graph nat := line [None; None; None].
Definition line3_heap : heap nat := Heap [line3] [].

(** The oracle that answers [True] on 0 and 1 and [False] elsewhere. *)
Definition below2 (v : nat) : bool := bool_decide (v < 2).

(** Draws of the random source: 0, 1, 2, ...; always the same number; and
    2, 2, 0, 0, ...  The draw [r] picks the element [r mod len(seq)]; the
    vertices of [line3] are listed as 2, 1, 0, so the draw 2 is vertex 0. *)
Definition in_turn : nat → nat := λ k, k.
Definition always (r : nat) : nat → nat := λ _, r.
Definition draws_220 : nat → nat := λ k, match k with 0 | 1 => 2 | _ => 0 end.

(** The graph 0 - 1, no vertex labeled. *)
Definition line2_heap : heap nat := Heap [line [None; None]] [].
(** The oracle that answers [True] on 0 only. *)
Definition only0 (v : nat) : bool := bool_decide (v = 0).

(** Graphs with labels and the labeled sets that go with them. *)
Definition line3_TF : heap nat :=
  Heap [line [Some true; Some false; None]] [[(0, true); (1, false)]].
Definition line5_TF : heap nat :=
  Heap [line [Some true; None; None; None; Some false]] [[(0, true); (4, false)]].
Definition line2_TF : heap nat :=
  Heap [line [Some true; Some false]] [[(0, true); (1, false)]].
(** A labeled set whose vertices carry no label on the graph. *)
Definition line3_stale : heap nat :=
  Heap [line3] [[(0, true); (1, false)]].
(** An input graph one vertex of which carries a label already. *)
Definition line3_prelabeled : heap nat :=
  Heap [line [None; None; Some false]] [].

(** The graph without vertices. *)
Definition no_vertex_heap : heap nat := Heap [empty_graph] [].

(** The graph 0 - 1 - 2 without labels, and a labeled set of two vertices
    that are not adjacent. *)
Definition line3_apart : heap nat :=
  Heap [line3] [[(0, true); (2, false)]].
(** A labeled set whose last vertex carries no label on the graph. *)
Definition line3_TF_unlabeled : heap nat :=
  Heap [line [Some true; Some false; None]]
       [[(0, true); (1, false); (2, true)]].
(** The graph 0 - 1 after its edge is cut. *)
Definition line2_cut : heap nat :=
  Heap [remove_edge (line [Some true; Some false]) (0, 1)]
       [[(0, true); (1, false)]].
(** A shortest-path function that returns the empty list. *)
Definition empty_path : Graph nat → nat → nat → outcome (option (list nat)) :=
  λ _ _ _, Return (Some []).
(** The draws 2, 0, 0, ...: on the graph 0 - 1 - 2 the vertices 0 and 2. *)
Definition draws_20 : nat → nat := λ k, match k with 0 => 2 | _ => 0 end.

(** A decidable proposition about given values, by evaluation. *)
Ltac by_compute := apply (bool_decide_unpack _); vm_compute; exact I.

(** * Properties of the graph operations *)

Section GraphLemmas.
Context `{Countable V}.
Implicit Types (g : Graph V) (u v x y : V) (e : edge V) (es : list (edge V)).

Lemma outcome_bind_Return {A B} (m : outcome A) (f : A → outcome B) b :
  m ≫= f = Return b → ∃ a, m = Return a ∧ f a = Return b.
Proof. destruct m; simpl; [eauto | done | done]. Qed.

Lemma getitem_label_Return g v (b : bool) :
  getitem_label g v = Return b ↔ node g !! v = Some (Some b).
Proof.
  unfold getitem_label. destruct (node g !! v) as [[b'|]|]; naive_solver.
Qed.

(** *** Removing edges *)

Lemma node_remove_edge g e : node (remove_edge g e) = node g.
Proof. unfold remove_edge. by case_decide. Qed.

Lemma dom_adj_remove_edge g e : dom (adj (remove_edge g e)) = dom (adj g).
Proof.
  unfold remove_edge. case_decide; [|done]. simpl.
  apply set_eq. intros k. by rewrite !dom_alter.
Qed.

Lemma neighbors_remove_edge g e x y :
  x ∈ neighbors (remove_edge g e) y ↔
  x ∈ neighbors g y ∧
  ¬ (e.2 ∈ neighbors g e.1 ∧ ((y, x) = e ∨ (x, y) = e)).
Proof.
  destruct e as [a b]. unfold remove_edge. simpl.
  case_decide as Hab; [|naive_solver].
  unfold neighbors in *. simpl. rewrite !lookup_alter.
  destruct (decide (b = y)) as [->|]; destruct (decide (a = y)) as [->|];
    simpl; destruct (adj g !! y) as [ns|]; simpl;
    try (case_decide; simplify_eq); simpl; set_solver.
Qed.

Lemma node_remove_edges_from es g : node (remove_edges_from g es) = node g.
Proof.
  unfold remove_edges_from. revert g.
  induction es as [|e es IH]; intros g; [done|].
  simpl. by rewrite IH, node_remove_edge.
Qed.

Lemma dom_adj_remove_edges_from es g :
  dom (adj (remove_edges_from g es)) = dom (adj g).
Proof.
  unfold remove_edges_from. revert g.
  induction es as [|e es IH]; intros g; [done|].
  simpl. by rewrite IH, dom_adj_remove_edge.
Qed.

Lemma neighbors_remove_edges_from_subseteq es g x y :
  x ∈ neighbors (remove_edges_from g es) y → x ∈ neighbors g y.
Proof.
  unfold remove_edges_from. revert g.
  induction es as [|e es IH]; intros g; [done|].
  simpl. intros Hx. apply IH in Hx. by apply neighbors_remove_edge in Hx as [? _].
Qed.

Lemma neighbors_remove_edges_from_lost es g x y :
  x ∈ neighbors g y → x ∉ neighbors (remove_edges_from g es) y →
  (y, x) ∈ es ∨ (x, y) ∈ es.
Proof.
  unfold remove_edges_from. revert g.
  induction es as [|e es IH]; intros g Hin Hout; [done|].
  simpl in Hout.
  destruct (decide (x ∈ neighbors (remove_edge g e) y)) as [Hk|Hk].
  - destruct (IH _ Hk Hout); [left|right]; by apply list_elem_of_further.
  - rewrite neighbors_remove_edge in Hk.
    destruct (decide ((y, x) = e)) as [<-|]; [left; apply list_elem_of_here|].
    destruct (decide ((x, y) = e)) as [<-|]; [right; apply list_elem_of_here|].
    naive_solver.
Qed.

Lemma neighbors_remove_edges_from_gone es g x y :
  (y, x) ∈ es → x ∉ neighbors (remove_edges_from g es) y.
Proof.
  revert g. induction es as [|e es IH]; intros g Hin; [by apply elem_of_nil in Hin|].
  apply elem_of_cons in Hin as [<-|Hin]; [|by apply IH].
  unfold remove_edges_from. simpl.
  intros Hx. apply neighbors_remove_edges_from_subseteq in Hx.
  apply neighbors_remove_edge in Hx as [Hx Hno]. simpl in Hno. naive_solver.
Qed.

(** *** The induced subgraph *)

Lemma neighbors_subgraph g (ns : list V) u v :
  v ∈ neighbors (subgraph g ns) u ↔ u ∈ ns ∧ v ∈ ns ∧ v ∈ neighbors g u.
Proof.
  unfold neighbors, subgraph. simpl. rewrite lookup_fmap.
  destruct (filter _ (adj g) !! u) as [s|] eqn:E; simpl.
  - apply map_lookup_filter_Some in E as [-> Hu]. simpl in *.
    rewrite elem_of_filter. naive_solver.
  - apply map_lookup_filter_None in E as [->|E]; simpl; [set_solver|].
    destruct (adj g !! u) as [s|]; simpl; [|set_solver].
    specialize (E s eq_refl). simpl in E. set_solver.
Qed.

Lemma node_subgraph g (ns : list V) v a :
  node (subgraph g ns) !! v = Some a ↔ node g !! v = Some a ∧ v ∈ ns.
Proof. unfold subgraph. simpl. by rewrite map_lookup_filter_Some. Qed.

(** The induced subgraph depends on the set of vertices only. *)
Lemma subgraph_ext g (ns ms : list V) :
  (∀ v, v ∈ ns ↔ v ∈ ms) → subgraph g ns = subgraph g ms.
Proof.
  intros Hnm. unfold subgraph.
  assert (filter (λ kv : V * option bool, kv.1 ∈ ns) (node g)
          = filter (λ kv, kv.1 ∈ ms) (node g)) as ->.
  { apply map_filter_ext. intros i a _. apply Hnm. }
  assert (filter (λ kv : V * gset V, kv.1 ∈ ns) (adj g)
          = filter (λ kv, kv.1 ∈ ms) (adj g)) as ->.
  { apply map_filter_ext. intros i a _. apply Hnm. }
  f_equal. apply map_fmap_ext. intros k s _.
  apply set_eq. intros v. rewrite !elem_of_filter. naive_solver.
Qed.

(** *** The edges of a graph *)

Lemma elem_of_edges_from (seen : gset V) items u v :
  (u, v) ∈ edges_from seen items →
  ∃ ns, (u, ns) ∈ items ∧ v ∈ ns.
Proof.
  revert seen. induction items as [|[n nbrs] rest IH]; intros seen; simpl.
  - by intros ?%elem_of_nil.
  - rewrite elem_of_app. intros [Hin|Hin].
    + apply list_elem_of_fmap in Hin as (w & [= -> ->] & Hw).
      apply list_elem_of_filter in Hw as [_ Hw]. apply elem_of_elements in Hw.
      exists nbrs. split; [apply list_elem_of_here|done].
    + destruct (IH _ Hin) as (ns & ? & ?). exists ns.
      split; [by apply list_elem_of_further|done].
Qed.

Lemma edges_from_complete (seen : gset V) items u v ns :
  NoDup items.*1 →
  (∀ k, k ∈ items.*1 → k ∉ seen) →
  (∀ a s b, (a, s) ∈ items → b ∈ s →
     b ∈ seen ∨ ∃ s', (b, s') ∈ items ∧ a ∈ s') →
  (u, ns) ∈ items → v ∈ ns → v ∉ seen →
  (u, v) ∈ edges_from seen items ∨ (v, u) ∈ edges_from seen items.
Proof.
  revert seen. induction items as [|[n nbrs] rest IH];
    intros seen Hnd Hseen Hsym Hu Hv Hvs; [by apply elem_of_nil in Hu|].
  simpl in *. apply NoDup_cons in Hnd as [Hn Hnd].
  assert (Hfirst : ∀ w, w ∈ nbrs → w ∉ seen →
            (n, w) ∈ (pair n <$> filter (λ nbr, nbr ∉ seen) (elements nbrs))).
  { intros w Hw Hws. apply list_elem_of_fmap. exists w. split; [done|].
    apply list_elem_of_filter. split; [done|]. by apply elem_of_elements. }
  apply elem_of_cons in Hu as [[= -> ->]|Hu].
  { left. apply elem_of_app. left. by apply Hfirst. }
  destruct (decide (v = n)) as [->|Hvn].
  - right. apply elem_of_app. left. apply Hfirst.
    + destruct (Hsym u ns n) as [?|(s' & Hs' & Hus')];
        [by apply list_elem_of_further|done|done|].
      apply elem_of_cons in Hs' as [[= <-]|Hs']; [done|].
      destruct Hn. apply list_elem_of_fmap. by exists (n, s').
    + apply Hseen. apply list_elem_of_further.
      apply list_elem_of_fmap. by exists (u, ns).
  - destruct (IH ({[n]} ∪ seen)) as [?|?]; [done| | |done|done|set_solver| |].
    + intros k Hk. apply not_elem_of_union. split.
      * apply not_elem_of_singleton. intros ->. done.
      * apply Hseen. by apply list_elem_of_further.
    + intros a s b Has Hb.
      destruct (Hsym a s b) as [?|(s' & Hs' & Has')];
        [by apply list_elem_of_further|done|set_solver|].
      apply elem_of_cons in Hs' as [[= -> ->]|Hs']; [set_solver|].
      right. by exists s'.
    + left. apply elem_of_app. by right.
    + right. apply elem_of_app. by right.
Qed.

Lemma elem_of_edges_iter g u v :
  (u, v) ∈ edges_iter g → v ∈ neighbors g u.
Proof.
  intros (ns & Hns & Hv)%elem_of_edges_from.
  apply elem_of_map_to_list in Hns. unfold neighbors. by rewrite Hns.
Qed.

Lemma wf_graph_sym g u v : wf_graph g → v ∈ neighbors g u → u ∈ neighbors g v.
Proof.
  intros [_ Hsym] Hv. unfold neighbors in Hv.
  destruct (adj g !! u) as [ns|] eqn:Hu; simpl in Hv; [|set_solver].
  exact (Hsym u ns Hu v Hv).
Qed.

(** In a graph with a symmetric [adj], every edge is reported, one way round
    or the other. *)
Lemma edges_iter_complete g u v :
  (∀ a b, b ∈ neighbors g a → a ∈ neighbors g b) →
  v ∈ neighbors g u →
  (u, v) ∈ edges_iter g ∨ (v, u) ∈ edges_iter g.
Proof.
  intros Hsym Hv. unfold neighbors in Hv.
  destruct (adj g !! u) as [ns|] eqn:Hu; simpl in Hv; [|set_solver].
  apply (edges_from_complete _ _ _ _ ns).
  - apply NoDup_fst_map_to_list.
  - set_solver.
  - intros a s b Has%elem_of_map_to_list Hb. right.
    assert (a ∈ neighbors g b) as Hab.
    { apply Hsym. unfold neighbors. by rewrite Has. }
    unfold neighbors in Hab.
    destruct (adj g !! b) as [s'|] eqn:Eb; simpl in Hab; [|set_solver].
    exists s'. by rewrite elem_of_map_to_list.
  - by apply elem_of_map_to_list.
  - done.
  - set_solver.
Qed.

Lemma elem_of_labeled_scan g v : v ∈ labeled_scan g ↔ labeled g v.
Proof.
  unfold labeled_scan, labeled. rewrite list_elem_of_fmap. split.
  - intros ([k a] & -> & Hf). apply list_elem_of_filter in Hf as [Hs Hin].
    simpl in Hs. destruct Hs as [b ->]. apply elem_of_map_to_list in Hin.
    by exists b.
  - intros [b Hb]. exists (v, Some b). split; [done|].
    apply list_elem_of_filter. split; [by eexists|]. by apply elem_of_map_to_list.
Qed.

Lemma discordant_sym g u v : discordant g u v → discordant g v u.
Proof. intros (a & b & ? & ? & ?). by exists b, a. Qed.

End GraphLemmas.

(** * Properties of the monadic code *)

Section CodeLemmas.
Context `{Countable V}.
Implicit Types (g : Graph V) (u v : V) (e : edge V) (es : list (edge V)).
Implicit Types (h : heap V) (l : labeled_set V).

Lemma M_bind_Return {A B} (m : M V A) (f : A → M V B) h r :
  (m ≫= f) h = Return r → ∃ a h1, m h = Return (a, h1) ∧ f a h1 = Return r.
Proof.
  unfold mbind, M_bind. destruct (m h) as [[a h1]| |]; [eauto | done | done].
Qed.

Lemma lift_Return {A} (o : outcome A) h r :
  lift o h = Return r → ∃ a, o = Return a ∧ r = (a, h).
Proof. unfold lift. destruct o; naive_solver. Qed.

Lemma graph_at_new h (gs : list (Graph V)) g ls :
  graphs h = gs → graph_at (Heap (gs ++ [g]) ls) (length gs) = g.
Proof.
  intros _. unfold graph_at. simpl.
  by rewrite lookup_app_r, Nat.sub_diag by lia.
Qed.

Lemma graph_at_insert (gs : list (Graph V)) ls G g :
  G < length gs → graph_at (Heap (<[G := g]> gs) ls) G = g.
Proof. intros. unfold graph_at. simpl. by rewrite list_lookup_insert_eq. Qed.

Lemma graph_at_insert_app (gs : list (Graph V)) ls G g g' :
  G < length gs → graph_at (Heap (<[G := g]> gs ++ [g']) ls) G = g.
Proof.
  intros. unfold graph_at. simpl.
  rewrite lookup_app_l by (rewrite length_insert; lia).
  by rewrite list_lookup_insert_eq.
Qed.

Lemma list_at_insert (ls : list (labeled_set V)) (gs : list (Graph V)) L l :
  L < length ls → list_at (Heap gs (<[L := l]> ls)) L = l.
Proof. intros. unfold list_at. simpl. by rewrite list_lookup_insert_eq. Qed.

Lemma cut_loop_Return g es acc cs :
  cut_loop g es acc = Return cs →
  (∀ e, e ∈ es → labeled g e.1 ∧ labeled g e.2) ∧
  (∀ e, e ∈ cs ↔ e ∈ acc ∨ (e ∈ es ∧ discordant g e.1 e.2)).
Proof.
  revert acc. induction es as [|e es IH]; intros acc; simpl.
  - intros [= <-]. split; [by intros ? ?%elem_of_nil|].
    intros e. rewrite elem_of_nil. naive_solver.
  - intros (a & Ha & (b & Hb & Hrest)%outcome_bind_Return)%outcome_bind_Return.
    apply getitem_label_Return in Ha, Hb.
    apply IH in Hrest as [Hlab Hcs]. split.
    + intros e' [->|?]%elem_of_cons; [|by apply Hlab].
      split; [by exists a|by exists b].
    + intros e'. rewrite Hcs, elem_of_cons. case_bool_decide as Hab.
      * rewrite elem_of_app, list_elem_of_singleton. split; [|naive_solver].
        intros [[?| ->]|?]; [naive_solver| |naive_solver].
        right. split; [by left|]. by exists a, b.
      * split; [naive_solver|]. intros [?|[[->|?] Hd]]; [naive_solver| |naive_solver].
        destruct Hd as (a' & b' & Ha' & Hb' & Hne). naive_solver.
Qed.

Lemma cut_loop_total g es acc :
  (∀ e, e ∈ es → labeled g e.1 ∧ labeled g e.2) →
  ∃ cs, cut_loop g es acc = Return cs.
Proof.
  revert acc. induction es as [|e es IH]; intros acc Hlab; simpl; [eauto|].
  destruct (Hlab e) as [[a Ha] [b Hb]]; [by left|].
  apply getitem_label_Return in Ha, Hb. rewrite Ha, Hb. simpl.
  apply IH. intros e' He'. apply Hlab. by right.
Qed.

(** [find_obvious_cuts] computes on the values it reads and allocates the
    induced subgraph; nothing else happens to the heap. *)
Lemma find_obvious_cuts_unfold G L h :
  find_obvious_cuts G L h =
  let g := graph_at h G in
  let sub := subgraph g (cut_nodes h G L) in
  match cut_loop g (edges_iter sub) [] with
  | Return cuts => Return (cuts, Heap (graphs h ++ [sub]) (lists h))
  | Raise e => Raise e
  | OutOfFuel => OutOfFuel
  end.
Proof.
  unfold find_obvious_cuts, cut_nodes, mbind, M_bind, mret, M_ret,
    get_graph, get_list, new_graph.
  destruct L as [L|]; cbn -[subgraph edges_iter cut_loop graph_at];
    rewrite (graph_at_new h) by done; unfold lift;
    by destruct (cut_loop _ _ _).
Qed.

Section Search.
Variable shortest_path : Graph V → V → V → outcome (option (list V)).

Lemma find_ssp_unfold G L h :
  find_ssp shortest_path G L h =
  match path_loop shortest_path (graph_at h G) (combinations2 (list_at h L).*1) [] with
  | Return [] => Return (None, h)
  | Return paths =>
      match min_by_len paths with
      | Return r => Return (r, h)
      | Raise e => Raise e
      | OutOfFuel => OutOfFuel
      end
  | Raise e => Raise e
  | OutOfFuel => OutOfFuel
  end.
Proof.
  unfold find_ssp, mbind, M_bind, mret, M_ret, get_graph, get_list, lift.
  cbn -[path_loop combinations2 min_by_len graph_at list_at].
  destruct (path_loop _ _ _ _) as [[|P ps]| |]; try done.
Qed.

Lemma find_ssp_heap G L h r h' :
  find_ssp shortest_path G L h = Return (r, h') → h' = h.
Proof.
  rewrite find_ssp_unfold.
  destruct (path_loop _ _ _ _) as [[|P ps]| |]; try done; [congruence|].
  destruct (min_by_len _); congruence.
Qed.

Lemma find_mssp_unfold G L h :
  find_mssp shortest_path G L h =
  match find_ssp shortest_path G L h with
  | Return (None, h') => Return (None, h')
  | Return (Some p, h') =>
      match p !! (length p `div` 2) with
      | Some v => Return (Some v, h')
      | None => Raise IndexError
      end
  | Raise e => Raise e
  | OutOfFuel => OutOfFuel
  end.
Proof.
  unfold find_mssp, mbind, M_bind.
  destruct (find_ssp _ _ _ _) as [[[p|] h']| |]; try done.
  by destruct (p !! _).
Qed.

Lemma find_mssp_heap G L h r h' :
  find_mssp shortest_path G L h = Return (r, h') → h' = h.
Proof.
  rewrite find_mssp_unfold.
  destruct (find_ssp _ _ _ _) as [[[p|] h1]| |] eqn:E; try done.
  - apply find_ssp_heap in E. destruct (p !! _); congruence.
  - apply find_ssp_heap in E. congruence.
Qed.

Variable oracle : V → bool.
Variable rng : nat → nat.

(** One pass of the inner loop, on the values. *)
Lemma query_Return G L vert h next h' :
  G < length (graphs h) → L < length (lists h) →
  query shortest_path oracle G L vert h = Return (next, h') →
  ∃ gl cuts,
    let l' := list_at h L ++ [(vert, oracle vert)] in
    let sub := subgraph gl l'.*1 in
    setitem_label (graph_at h G) vert (oracle vert) = Return gl ∧
    cut_loop gl (edges_iter sub) [] = Return cuts ∧
    graphs h' = <[G := remove_edges_from gl cuts]> (graphs h) ++ [sub] ∧
    lists h' = <[L := l']> (lists h) ∧
    find_mssp shortest_path G L h' = Return (next, h').
Proof.
  destruct h as [gs ls]. simpl. intros HG HL.
  unfold query. intros Hq.
  apply M_bind_Return in Hq as ([] & h1 & E1 & Hq).
  apply M_bind_Return in Hq as (g & h2 & E2 & Hq).
  apply M_bind_Return in Hq as (? & h3 & (gl & Hset & E3)%lift_Return & Hq).
  apply M_bind_Return in Hq as ([] & h4 & E4 & Hq).
  apply M_bind_Return in Hq as (cuts & h5 & Hcuts & Hq).
  apply M_bind_Return in Hq as (g5 & h6 & E6 & Hq).
  apply M_bind_Return in Hq as ([] & h7 & E7 & Hq).
  unfold append, get_graph, put_graph in *. simplify_eq.
  rewrite find_obvious_cuts_unfold in Hcuts.
  cbn -[subgraph edges_iter cut_loop graph_at list_at] in Hcuts.
  rewrite (graph_at_insert gs), (list_at_insert ls) in Hcuts by done.
  destruct (cut_loop _ _ _) as [cs| |] eqn:Hloop; try done.
  simplify_eq.
  pose proof (find_mssp_heap _ _ _ _ _ Hq) as ->.
  cbn -[subgraph edges_iter cut_loop remove_edges_from graph_at list_at] in *.
  rewrite (graph_at_insert_app gs) in Hq |- * by done.
  rewrite insert_app_l, list_insert_insert_eq in Hq |- *
    by (rewrite length_insert; lia).
  by exists gl, cuts.
Qed.

End Search.
End CodeLemmas.

(** * The query loop *)

Section RunLemmas.
Context `{Countable V}.
Variable shortest_path : Graph V → V → V → outcome (option (list V)).
Variable oracle : V → bool.
Variable rng : nat → nat.
Implicit Types (g : Graph V) (u v : V) (h : heap V) (c : config V).

Local Abbreviation step := (step shortest_path oracle rng).
Local Abbreviation steps := (steps shortest_path oracle rng).
Local Abbreviation loop := (loop shortest_path oracle rng).
Local Abbreviation run_to := (run_to shortest_path oracle rng).
Local Abbreviation s2 := (s2 shortest_path oracle rng).
Local Abbreviation inv := (inv oracle).

Lemma setitem_label_Return g v b g' :
  setitem_label g v b = Return g' →
  is_Some (node g !! v) ∧ node g' = <[v := Some b]> (node g) ∧ adj g' = adj g.
Proof.
  unfold setitem_label. destruct (node g !! v) eqn:E; [|done].
  intros [= <-]. eauto.
Qed.

(** The head of the outer loop and the exit leave the heap alone. *)
Lemma step_Outer c h c' h' :
  at_pc c = Outer → step c h = Return (c', h') →
  h' = h ∧ cG c' = cG c ∧ cL c' = cL c ∧ cn c' = cn c ∧ asked c' = asked c ∧
  ((at_pc c' = Exit ∧ length (labels_of c h) = cn c) ∨
   (∃ vert, at_pc c' = Inner vert ∧ length (labels_of c h) ≠ cn c)).
Proof.
  unfold step. intros ->. intros Hs.
  apply M_bind_Return in Hs as (l & h1 & E1 & Hs). unfold get_list in E1.
  simplify_eq. case_decide as Hlen.
  - unfold mret, M_ret in Hs. simplify_eq. simpl. split_and!; try done. by left.
  - apply M_bind_Return in Hs as (g & h2 & E2 & Hs). unfold get_graph in E2.
    simplify_eq.
    apply M_bind_Return in Hs as (? & h3 & (vert & _ & E3)%lift_Return & Hs).
    unfold mret, M_ret in Hs. simplify_eq. simpl. split_and!; try done.
    right. by exists vert.
Qed.

Lemma step_Exit c h c' h' :
  at_pc c = Exit → step c h = Return (c', h') → c' = c ∧ h' = h.
Proof. unfold step. intros ->. unfold mret, M_ret. naive_solver. Qed.

(** A pass of the inner loop. *)
Lemma step_Inner c h c' h' vert :
  at_pc c = Inner vert → valid c h → step c h = Return (c', h') →
  ∃ gl cuts,
    let l' := labels_of c h ++ [(vert, oracle vert)] in
    setitem_label (working c h) vert (oracle vert) = Return gl ∧
    cut_loop gl (edges_iter (subgraph gl l'.*1)) [] = Return cuts ∧
    graphs h' = <[cG c := remove_edges_from gl cuts]> (graphs h)
                  ++ [subgraph gl l'.*1] ∧
    lists h' = <[cL c := l']> (lists h) ∧
    working c' h' = remove_edges_from gl cuts ∧
    labels_of c' h' = l' ∧
    at_pc c' ≠ Exit ∧
    cG c' = cG c ∧ cL c' = cL c ∧ cn c' = cn c ∧ asked c' = asked c ++ [vert].
Proof.
  unfold step. intros -> [HG HL] Hs.
  apply M_bind_Return in Hs as (next & h1 & Hq & Hs).
  unfold mret, M_ret in Hs. simplify_eq.
  apply query_Return in Hq as (gl & cuts & Hset & Hcuts & Hgs & Hls & _);
    [|done..].
  exists gl, cuts. unfold working, labels_of, graph_at, list_at. simpl.
  rewrite Hgs, Hls.
  rewrite lookup_app_l, list_lookup_insert_eq by (rewrite ?length_insert; lia).
  rewrite list_lookup_insert_eq by done.
  split_and!; try done. by destruct next.
Qed.

Lemma step_valid c h c' h' :
  valid c h → step c h = Return (c', h') → valid c' h'.
Proof.
  intros Hv Hs. destruct (at_pc c) as [|vert|] eqn:Hpc.
  - apply step_Outer in Hs as (-> & HG & HL & _); [|done].
    unfold valid. by rewrite HG, HL.
  - eapply step_Inner in Hs as (gl & cuts & _ & _ & Hgs & Hls & _ & _ & _ & HG & HL & _);
      [|done..].
    destruct Hv. unfold valid.
    rewrite HG, HL, Hgs, Hls, length_app, !length_insert. lia.
  - by apply step_Exit in Hs as [-> ->].
Qed.

Lemma step_inv h0 Gin c h c' h' :
  inv h0 Gin c h → step c h = Return (c', h') → inv h0 Gin c' h'.
Proof.
  intros Hinv Hs.
  pose proof Hinv as (HGin & HG & HL & Hgs & Hls & Hv & Hn & Hnode & Hadj & Hsub
                      & Hcut & Hlab & Honly & Hasked).
  destruct (at_pc c) as [|vert|] eqn:Hpc.
  - apply step_Outer in Hs as (-> & HG' & HL' & Hn' & Ha' & _); [|done].
    unfold inv, valid, working, labels_of in *.
    rewrite HG', HL', Hn', Ha'. done.
  - pose proof (step_valid _ _ _ _ Hv Hs) as Hv'.
    eapply step_Inner in Hs
      as (gl & cuts & Hset & Hcuts & Hgs' & Hls' & Hw & Hl & _ & HG' & HL' & Hn' & Ha');
      [|done..].
    apply setitem_label_Return in Hset as (Hvert & Hnl & Hal).
    apply cut_loop_Return in Hcuts as [_ Hcs].
    destruct Hv as [HvG HvL].
    set (l' := labels_of c h ++ [(vert, oracle vert)]) in *.
    assert (Hlab' : ∀ v b, (v, b) ∈ l' →
              b = oracle v ∧ node gl !! v = Some (Some b)).
    { intros v b [Hin|Hin%list_elem_of_singleton]%elem_of_app.
      - destruct (Hlab _ _ Hin) as [-> Hvb]. split; [done|].
        rewrite Hnl, lookup_insert. case_decide; by simplify_eq.
      - simplify_eq. split; [done|]. by rewrite Hnl, lookup_insert_eq. }
    assert (Hfst : ∀ v, v ∈ l'.*1 → node gl !! v = Some (Some (oracle v))).
    { intros v Hvl. apply list_elem_of_fmap in Hvl as ([v' b] & -> & Hin).
      by destruct (Hlab' _ _ Hin) as [-> ?]. }
    unfold inv. rewrite Hw, Hl, HG', HL', Hn', Ha'.
    rewrite node_remove_edges_from, dom_adj_remove_edges_from, Hnl, Hal.
    split_and!; try done.
    + rewrite Hgs', take_app_le, take_insert_ge by (rewrite ?length_insert; lia).
      done.
    + rewrite Hls', take_insert_ge by lia. done.
    + rewrite dom_insert_lookup_L; done.
    + intros u v Hin%neighbors_remove_edges_from_subseteq. apply Hsub.
      unfold neighbors in *. by rewrite <-Hal.
    + intros u v Hin Hout.
      destruct (decide (v ∈ neighbors (working c h) u)) as [Hw'|Hw'].
      * assert (v ∈ neighbors gl u) as Hgl by (unfold neighbors in *; by rewrite Hal).
        assert (∃ e, e ∈ cuts ∧ (e = (u, v) ∨ e = (v, u))) as (e & He & Huv).
        { destruct (neighbors_remove_edges_from_lost _ _ _ _ Hgl Hout); eauto. }
        apply Hcs in He as [?%elem_of_nil|[He (a & b & Ha & Hb & Hab)]]; [done|].
        destruct e as [e1 e2]. apply elem_of_edges_iter, neighbors_subgraph in He
          as (H1 & H2 & _).
        simpl in *. rewrite (Hfst _ H1) in Ha. rewrite (Hfst _ H2) in Hb.
        destruct Huv; simplify_eq; split_and!; try done; congruence.
      * destruct (Hcut _ _ Hin Hw') as (? & ? & ?). unfold l'.
        rewrite fmap_app, !elem_of_app. auto.
    + intros v b Hin. rewrite <-Hnl. by apply Hlab'.
    + intros v b. rewrite lookup_insert. case_decide as Hvv.
      * intros _. left. subst. unfold l'. rewrite fmap_app, elem_of_app. right.
        apply list_elem_of_here.
      * intros [Hin|?]%Honly; [|by right]. left. unfold l'.
        rewrite fmap_app, elem_of_app. by left.
    + unfold l'. by rewrite fmap_app, Hasked.
  - by apply step_Exit in Hs as [-> ->].
Qed.

Lemma steps_inv h0 Gin k c h c' h' :
  inv h0 Gin c h → steps k c h = Return (c', h') → inv h0 Gin c' h'.
Proof.
  revert c h. induction k as [|k IH]; intros c h Hinv; simpl.
  - unfold mret, M_ret. naive_solver.
  - intros (c1 & h1 & Hs & Hk)%M_bind_Return. eauto using step_inv.
Qed.

Lemma start_inv h0 Gin c h :
  Gin < length (graphs h0) → start Gin h0 = Return (c, h) → inv h0 Gin c h.
Proof.
  intros HGin. unfold start, copy, mbind, M_bind, mret, M_ret, get_graph,
    new_graph, new_list. simpl. intros [= <- <-].
  unfold inv, valid, working, labels_of, graph_at, list_at. simpl.
  rewrite (take_app_length (graphs h0)), (take_app_length (lists h0)).
  rewrite (lookup_app_r (graphs h0)), (lookup_app_r (lists h0)) by lia.
  rewrite !Nat.sub_diag, !length_app. simpl.
  split_and!; try done; try lia.
  - intros v b ?%elem_of_nil. done.
  - intros v b ?. by right.
Qed.

Lemma run_to_inv h0 Gin k c h :
  Gin < length (graphs h0) → run_to k Gin h0 = Return (c, h) → inv h0 Gin c h.
Proof.
  intros HGin (c0 & h1 & Hstart & Hk)%M_bind_Return.
  eauto using steps_inv, start_inv.
Qed.

(** A run that returns has made finitely many transitions and is at the exit. *)
Lemma loop_Return fuel c h c' h' :
  loop fuel c h = Return (c', h') →
  at_pc c' = Exit ∧ ∃ k, steps k c h = Return (c', h').
Proof.
  revert c h. induction fuel as [|fuel IH]; intros c h; simpl.
  - destruct (at_pc c) eqn:Hpc; try done.
    unfold mret, M_ret. intros [= <- <-]. split; [done|]. by exists 0.
  - destruct (at_pc c) eqn:Hpc.
    + intros (c1 & h1 & Hs & Hk)%M_bind_Return.
      destruct (IH _ _ Hk) as [? [k Hk']]. split; [done|]. exists (S k). simpl.
      unfold mbind, M_bind. by rewrite Hs.
    + intros (c1 & h1 & Hs & Hk)%M_bind_Return.
      destruct (IH _ _ Hk) as [? [k Hk']]. split; [done|]. exists (S k). simpl.
      unfold mbind, M_bind. by rewrite Hs.
    + unfold mret, M_ret. intros [= <- <-]. split; [done|]. by exists 0.
Qed.

Lemma s2_Return fuel Gin h0 Gret h' :
  s2 fuel Gin h0 = Return (Gret, h') →
  ∃ k c, run_to k Gin h0 = Return (c, h') ∧ at_pc c = Exit ∧ cG c = Gret.
Proof.
  unfold s2. intros (c0 & h1 & Hstart & Hl)%M_bind_Return.
  apply M_bind_Return in Hl as (c' & h2 & Hloop & Hret).
  unfold mret, M_ret in Hret. simplify_eq.
  apply loop_Return in Hloop as [Hpc [k Hk]].
  exists k, c'. split_and!; try done.
  unfold run_to, mbind, M_bind. by rewrite Hstart.
Qed.

End RunLemmas.

(** * Cut inference *)

Section CutInference.
Context `{Countable V}.
Implicit Types (g : Graph V) (u v : V) (h : heap V).

Lemma subgraph_edges_labeled g (ns : list V) e :
  (∀ v, v ∈ ns → labeled g v) → e ∈ edges_iter (subgraph g ns) →
  labeled g e.1 ∧ labeled g e.2.
Proof.
  intros Hns He. destruct e as [a b].
  apply elem_of_edges_iter, neighbors_subgraph in He as (? & ? & _). auto.
Qed.

(** C3, as amended: on a graph that satisfies the invariants of networkx, and
    a labeled set every vertex of which carries a label attribute in the
    graph, Cut Inference returns exactly the edges of the graph whose two
    endpoints are listed in the labeled set and carry different label
    attributes; the only change to the heap is the allocation of the induced
    subgraph, so the graph and the labeled set are as they were. *)
Theorem find_obvious_cuts_correct (G : gref) (L : lref) h :
  wf_graph (graph_at h G) →
  (∀ v, v ∈ (list_at h L).*1 → labeled (graph_at h G) v) →
  find_obvious_cuts_spec G L h.
Proof.
  intros Hwf Hlab. unfold find_obvious_cuts_spec.
  rewrite find_obvious_cuts_unfold. simpl.
  set (g := graph_at h G) in *. set (ns := (list_at h L).*1) in *.
  destruct (cut_loop_total g (edges_iter (subgraph g ns)) []) as [cuts Hcuts].
  { intros e He. by apply (subgraph_edges_labeled g ns). }
  rewrite Hcuts. eexists _, _. split; [done|].
  apply cut_loop_Return in Hcuts as [_ Hcs]. split.
  - intros u v. unfold has_edge. rewrite !Hcs, !elem_of_nil. split.
    + intros [[[]|[He Hd]]|[[]|[He Hd]]];
        apply elem_of_edges_iter, neighbors_subgraph in He as (? & ? & Hn);
        simpl in *; split_and!; try done.
      * by apply (wf_graph_sym g) in Hn.
      * by apply discordant_sym.
    + intros (Hn & Hu & Hv & Hd).
      destruct (edges_iter_complete (subgraph g ns) u v) as [He|He].
      * intros a b (? & ? & ?%(wf_graph_sym g))%neighbors_subgraph; [|done].
        by apply neighbors_subgraph.
      * by apply neighbors_subgraph.
      * left. right. by split.
      * right. right. split; [done|]. by apply discordant_sym.
  - split; simpl; [by apply prefix_app_r|done].
Qed.

Lemma labels_agree_iff g (l : labeled_set V) :
  labels_agree g l →
  ∀ v b, node g !! v = Some (Some b) ↔ (v, b) ∈ l.
Proof.
  intros [Hl Hg] v b. split.
  - intros Hv. by apply (Hg v (Some b)).
  - intros Hin. by apply (proj1 (Forall_forall _ _) Hl (v, b)).
Qed.

(** C4: when the vertices that carry a label attribute are exactly the
    vertices listed in [L], with the same labels, Cut Inference with the
    labeled set [L] and Cut Inference with no labeled set (which scans the
    graph for label attributes) both return, and return the same set of
    edges. *)
Theorem find_obvious_cuts_scan_agrees (G : gref) (L : lref) h :
  (∀ v b, node (graph_at h G) !! v = Some (Some b) ↔ (v, b) ∈ list_at h L) →
  ∃ cuts1 h1 cuts2 h2,
    find_obvious_cuts G (Some L) h = Return (cuts1, h1) ∧
    find_obvious_cuts G None h = Return (cuts2, h2) ∧
    ∀ u v, has_edge cuts1 u v ↔ has_edge cuts2 u v.
Proof.
  intros Hagree. rewrite !find_obvious_cuts_unfold. simpl.
  set (g := graph_at h G) in *. set (l := list_at h L) in *.
  assert (Hsame : ∀ v, v ∈ l.*1 ↔ v ∈ labeled_scan g).
  { intros v. rewrite elem_of_labeled_scan, list_elem_of_fmap. split.
    - intros ([v' b] & -> & Hin). exists b. by apply Hagree.
    - intros [b Hb]. exists (v, b). split; [done|]. by apply Hagree. }
  rewrite <-(subgraph_ext g _ _ Hsame).
  destruct (cut_loop_total g (edges_iter (subgraph g l.*1)) []) as [cuts Hcuts].
  { intros e He. apply (subgraph_edges_labeled g l.*1); [|done].
    intros v Hv. by apply elem_of_labeled_scan, Hsame. }
  rewrite Hcuts. by eexists _, _, _, _.
Qed.

End CutInference.

Lemma find_obvious_cuts_correct_witness :
  wf_graph (graph_at line3_TF 0) ∧
  (∃ h', find_obvious_cuts 0 (Some 0) line3_TF = Return ([(1, 0)], h')) ∧
  find_obvious_cuts_spec 0 0 line3_TF.
Proof.
  assert (Hwf : wf_graph (graph_at line3_TF 0)).
  { by_compute. }
  split_and!; [exact Hwf| |].
  - exists (Heap [graph_at line3_TF 0; subgraph (graph_at line3_TF 0) [0; 1]]
              (lists line3_TF)).
    vm_compute. reflexivity.
  - apply (find_obvious_cuts_correct 0 0 line3_TF Hwf).
    apply Forall_forall. by_compute.
Defined.

(** C3, as the claim has it, fails: the vertices 0 and 1 of the labeled set
    are vertices of the graph 0 - 1 - 2, which carries no label; the lookup
    of the label of an endpoint of the edge 0 - 1 raises [KeyError]. *)
Lemma find_obvious_cuts_counterexample :
  ¬ ((∀ v, v ∈ (list_at line3_stale 0).*1 →
           v ∈ dom (node (graph_at line3_stale 0))) →
     find_obvious_cuts_spec 0 0 line3_stale).
Proof.
  intros Hclaim. destruct Hclaim as (cuts & h' & Hret & _).
  - apply Forall_forall. by_compute.
  - vm_compute in Hret. discriminate Hret.
Qed.

Lemma find_obvious_cuts_scan_agrees_witness :
  ∃ cuts1 h1 cuts2 h2,
    find_obvious_cuts 0 (Some 0) line3_TF = Return (cuts1, h1) ∧
    find_obvious_cuts 0 None line3_TF = Return (cuts2, h2) ∧
    ∀ u v, has_edge cuts1 u v ↔ has_edge cuts2 u v.
Proof.
  apply (find_obvious_cuts_scan_agrees 0 0 line3_TF).
  apply labels_agree_iff. by_compute.
Defined.

(** * The search for the shortest discordant path *)

Section SearchLemmas.
Context `{Countable V}.
Variable shortest_path : Graph V → V → V → outcome (option (list V)).
Implicit Types (g : Graph V) (u v : V) (h : heap V) (p q : list V).

Local Abbreviation path_loop := (path_loop shortest_path).
Local Abbreviation find_ssp := (find_ssp shortest_path).
Local Abbreviation find_mssp := (find_mssp shortest_path).
Local Abbreviation find_ssp_spec := (find_ssp_spec shortest_path).

(** [combinations2] lists the pairs of two positions, the first position
    before the second. *)
Lemma elem_of_combinations2 {A} (xs : list A) (a b : A) :
  (a, b) ∈ combinations2 xs ↔
  ∃ i j, i < j ∧ xs !! i = Some a ∧ xs !! j = Some b.
Proof.
  induction xs as [|x rest IH]; simpl.
  - rewrite elem_of_nil. split; [done|]. by intros (i & j & _ & ? & _).
  - rewrite elem_of_app, list_elem_of_fmap, IH. split.
    + intros [(b' & [= -> ->] & Hb)|(i & j & Hij & Hi & Hj)].
      * apply list_elem_of_lookup in Hb as [k Hk].
        exists 0, (S k). split_and!; [lia|done|done].
      * exists (S i), (S j). split_and!; [lia|done|done].
    + intros (i & j & Hij & Hi & Hj). destruct j as [|j]; [lia|].
      destruct i as [|i]; simpl in *.
      * left. exists b. split; [congruence|]. by eapply list_elem_of_lookup_2.
      * right. exists i, j. split_and!; [lia|done|done].
Qed.

Lemma combinations2_elem_of {A} (xs : list A) (a b : A) :
  (a, b) ∈ combinations2 xs → a ∈ xs ∧ b ∈ xs.
Proof.
  intros (i & j & _ & Hi & Hj)%elem_of_combinations2.
  split; by eapply list_elem_of_lookup_2.
Qed.

Lemma candidate_discordant g u v :
  discordant g u v →
  candidate shortest_path g (u, v) = match shortest_path g u v with
                       | Return (Some p) => Some p
                       | _ => None
                       end.
Proof. intros Hd. unfold candidate. simpl. by rewrite decide_True. Qed.

Lemma candidate_concordant g u v :
  ¬ discordant g u v → candidate shortest_path g (u, v) = None.
Proof. intros Hd. unfold candidate. simpl. by rewrite decide_False. Qed.

(** On labeled vertices and a shortest-path function that answers with a path
    or with [NetworkXNoPath], the loop of [find_ssp] appends the paths of the
    discordant pairs, in order. *)
Lemma path_loop_candidates g (pairs : list (V * V)) paths :
  (∀ uv, uv ∈ pairs → labeled g uv.1 ∧ labeled g uv.2) →
  (∀ uv, uv ∈ pairs → discordant g uv.1 uv.2 →
         path_or_no_path (shortest_path g uv.1 uv.2)) →
  path_loop g pairs paths
  = Return (paths ++ (Some <$> omap (candidate shortest_path g) pairs)).
Proof.
  revert paths. induction pairs as [|[u v] rest IH]; intros paths Hlab Hsp; simpl.
  - by rewrite app_nil_r.
  - destruct (Hlab (u, v)) as [[a Ha] [b Hb]]; [by left|]. simpl in *.
    assert (Hrest : ∀ ps,
              path_loop g rest ps
              = Return (ps ++ (Some <$> omap (candidate shortest_path g) rest))).
    { intros ps. apply IH; intros uv Huv; [apply Hlab|apply Hsp]; by right. }
    rewrite (proj2 (getitem_label_Return g u a) Ha),
      (proj2 (getitem_label_Return g v b) Hb). simpl.
    case_bool_decide as Hab.
    + assert (Hd : discordant g u v) by (by exists a, b).
      rewrite (candidate_discordant g u v Hd).
      pose proof (Hsp (u, v) (list_elem_of_here _ _) Hd) as Hans. simpl in Hans.
      destruct (shortest_path g u v) as [[p|]|[]|]; try done;
        rewrite Hrest, <-?app_assoc; done.
    + rewrite candidate_concordant, Hrest; [done|].
      intros (a' & b' & ? & ? & ?). naive_solver.
Qed.

(** [min] keeps the first of the shortest elements. *)
Lemma min_loop_first_shortest (b : list V) (rest pre post : list (list V)) :
  Forall (λ q, length b < length q) pre →
  Forall (λ q, length b ≤ length q) post →
  ∃ p, min_loop (Some b) (length b) (Some <$> rest) = Return (Some p) ∧
       first_shortest (pre ++ b :: post ++ rest) (Some p).
Proof.
  revert b pre post. induction rest as [|q rest IH]; intros b pre post Hpre Hpost.
  - exists b. split; [done|]. exists pre, post. by rewrite app_nil_r.
  - simpl. destruct (Nat.ltb_spec (length q) (length b)) as [Hlt|Hge].
    + destruct (IH q (pre ++ b :: post) []) as (p & Hp & Hfirst); [|done|].
      { apply Forall_app. split; [|apply Forall_cons; split].
        - eapply Forall_impl; [exact Hpre|]. simpl. lia.
        - lia.
        - eapply Forall_impl; [exact Hpost|]. simpl. lia. }
      exists p. split; [done|]. simpl in Hfirst.
      by rewrite <-app_assoc in Hfirst.
    + destruct (IH b pre (post ++ [q])) as (p & Hp & Hfirst); [done| |].
      { apply Forall_app. split; [done|]. by apply Forall_singleton. }
      exists p. split; [done|]. by rewrite <-app_assoc in Hfirst.
Qed.

Lemma min_by_len_first_shortest (ps : list (list V)) :
  ps ≠ [] →
  ∃ p, min_by_len (Some <$> ps) = Return (Some p) ∧ first_shortest ps (Some p).
Proof.
  destruct ps as [|b rest]; [done|]. intros _. simpl.
  by apply (min_loop_first_shortest b rest [] []).
Qed.

(** A [None] among the paths makes [min] raise [TypeError]. *)
Lemma min_loop_None best k (rest : list (option (list V))) :
  None ∈ rest → min_loop best k rest = Raise TypeError.
Proof.
  revert best k. induction rest as [|P rest IH]; intros best k Hin.
  - by apply elem_of_nil in Hin.
  - simpl. destruct P as [p|]; simpl; [|done].
    apply elem_of_cons in Hin as [?|Hin]; [done|].
    destruct (length p <? k); by apply IH.
Qed.

Lemma min_by_len_None (paths : list (option (list V))) :
  None ∈ paths → min_by_len paths = Raise TypeError.
Proof.
  destruct paths as [|P rest]; [by intros ?%elem_of_nil|].
  simpl. destruct P as [p|]; simpl; [|done].
  intros [?|Hin]%elem_of_cons; [done|]. by apply min_loop_None.
Qed.

(** C7, as amended: when every vertex of the labeled set carries a label
    attribute in the graph, and the shortest-path function answers every
    discordant pair with a path or with the no-path exception,
    [find_ssp] returns; the pairs it considers are the pairs of two positions
    of the labeled set, the first before the second, whose label attributes
    differ; the result is [None] when none of them has a path, and otherwise
    the first, in the order of the pairs, of the paths with the least number
    of vertices. *)
Theorem find_ssp_correct (G : gref) (L : lref) h :
  let g := graph_at h G in
  let ns := (list_at h L).*1 in
  (∀ v, v ∈ ns → labeled g v) →
  (∀ u v, u ∈ ns → v ∈ ns → discordant g u v →
          path_or_no_path (shortest_path g u v)) →
  find_ssp_spec G L h ∧
  (∀ u v, (u, v) ∈ combinations2 ns ↔
          ∃ i j, i < j ∧ ns !! i = Some u ∧ ns !! j = Some v).
Proof.
  intros g ns Hlab Hsp. split; [|intros u v; apply elem_of_combinations2].
  unfold find_ssp_spec. rewrite find_ssp_unfold. fold g ns.
  rewrite path_loop_candidates; simpl.
  - fold (candidates shortest_path g ns).
    destruct (candidates shortest_path g ns) as [|b rest] eqn:Hc; simpl; [by exists None|].
    destruct (min_by_len_first_shortest (b :: rest)) as (p & Hmin & Hfirst);
      [done|].
    simpl in Hmin. rewrite Hmin. by exists (Some p).
  - intros [u v] [? ?]%combinations2_elem_of. auto.
  - intros [u v] [? ?]%combinations2_elem_of. auto.
Qed.

(** The no-path exception alone: every discordant pair is skipped and the
    result is [None]. *)
Lemma find_ssp_all_no_path (G : gref) (L : lref) h :
  let g := graph_at h G in
  let ns := (list_at h L).*1 in
  (∀ v, v ∈ ns → labeled g v) →
  (∀ u v, u ∈ ns → v ∈ ns → discordant g u v →
          shortest_path g u v = Raise NetworkXNoPath) →
  find_ssp G L h = Return (None, h).
Proof.
  intros g ns Hlab Hsp. rewrite find_ssp_unfold. fold g ns.
  assert (Hin : ∀ uv, uv ∈ combinations2 ns → uv.1 ∈ ns ∧ uv.2 ∈ ns).
  { intros [u v]. apply combinations2_elem_of. }
  rewrite path_loop_candidates; simpl.
  - assert (omap (candidate shortest_path g) (combinations2 ns) = []) as ->; [|done].
    induction (combinations2 ns) as [|[u v] rest IH]; [done|]. simpl.
    destruct (Hin (u, v)) as [Hu Hv]; [by left|]. simpl in *.
    destruct (decide (discordant g u v)) as [Hd|Hd].
    + rewrite (candidate_discordant g u v Hd), (Hsp u v Hu Hv Hd).
      apply IH. intros uv Huv. apply Hin. by right.
    + rewrite (candidate_concordant g u v Hd).
      apply IH. intros uv Huv. apply Hin. by right.
  - intros uv Huv. destruct (Hin uv Huv). auto.
  - intros uv Huv Hd. destruct (Hin uv Huv).
    by rewrite Hsp.
Qed.

(** The value [None] as the answer for a discordant pair: it is appended to
    [paths] like a path, and [min] then raises. *)
Lemma path_loop_keeps_None g (pairs : list (V * V)) paths ps :
  None ∈ paths → path_loop g pairs paths = Return ps → None ∈ ps.
Proof.
  revert paths. induction pairs as [|[u v] rest IH]; intros paths Hin; simpl.
  - by intros [= <-].
  - intros (a & _ & (b & _ & Hrest)%outcome_bind_Return)%outcome_bind_Return.
    case_bool_decide; [|by eapply IH].
    destruct (shortest_path g u v) as [P|[]|]; try done.
    + apply (IH (paths ++ [P])); [|done]. apply elem_of_app. by left.
    + by apply (IH paths).
Qed.

Lemma path_loop_appends_None g (pairs : list (V * V)) paths ps u v :
  (u, v) ∈ pairs → discordant g u v → shortest_path g u v = Return None →
  path_loop g pairs paths = Return ps → None ∈ ps.
Proof.
  intros Hin (a' & b' & Ha' & Hb' & Hne) Hsp. revert paths.
  induction pairs as [|[u1 v1] rest IH]; intros paths; simpl;
    [by apply elem_of_nil in Hin|].
  intros (a & Ha & (b & Hb & Hrest)%outcome_bind_Return)%outcome_bind_Return.
  apply elem_of_cons in Hin as [[= <- <-]|Hin].
  - apply getitem_label_Return in Ha, Hb. simplify_eq.
    rewrite bool_decide_eq_true_2, Hsp in Hrest by done.
    eapply path_loop_keeps_None; [|done].
    apply elem_of_app. right. apply list_elem_of_here.
  - case_bool_decide; [|by eapply IH].
    destruct (shortest_path g u1 v1) as [P|[]|]; try done; by eapply IH.
Qed.

Lemma find_ssp_None_never_returns (G : gref) (L : lref) h u v r :
  (u, v) ∈ combinations2 (list_at h L).*1 →
  discordant (graph_at h G) u v →
  shortest_path (graph_at h G) u v = Return None →
  find_ssp G L h ≠ Return r.
Proof.
  intros Hin Hd Hsp. rewrite find_ssp_unfold.
  destruct (path_loop _ _ _) as [ps| |] eqn:Hloop; [|done..].
  pose proof (path_loop_appends_None _ _ _ _ _ _ Hin Hd Hsp Hloop) as Hnone.
  destruct ps as [|P ps]; [by apply elem_of_nil in Hnone|].
  by rewrite (min_by_len_None (P :: ps) Hnone).
Qed.

(** C6: on a winning path of [k >= 2] vertices, [find_mssp] returns the
    vertex at index [k / 2]: the third of five, the second of two; when the
    search found no path it returns [None]. *)
Theorem find_mssp_midpoint (G : gref) (L : lref) h :
  (∀ p h', find_ssp G L h = Return (Some p, h') → 2 ≤ length p →
     ∃ v, p !! (length p `div` 2) = Some v ∧
          find_mssp G L h = Return (Some v, h')) ∧
  (∀ v0 v1 v2 v3 v4 h',
     find_ssp G L h = Return (Some [v0; v1; v2; v3; v4], h') →
     find_mssp G L h = Return (Some v2, h')) ∧
  (∀ v0 v1 h',
     find_ssp G L h = Return (Some [v0; v1], h') →
     find_mssp G L h = Return (Some v1, h')) ∧
  (∀ h', find_ssp G L h = Return (None, h') →
         find_mssp G L h = Return (None, h')).
Proof.
  rewrite find_mssp_unfold. split_and!.
  - intros p h' -> Hlen.
    destruct (lookup_lt_is_Some_2 p (length p `div` 2)) as [v Hv].
    { apply Nat.div_lt; lia. }
    exists v. by rewrite Hv.
  - by intros v0 v1 v2 v3 v4 h' ->.
  - by intros v0 v1 h' ->.
  - by intros h' ->.
Qed.

End SearchLemmas.

Lemma find_ssp_correct_witness :
  find_ssp_spec nx_shortest_path 0 0 line5_TF.
Proof.
  refine (proj1 (find_ssp_correct nx_shortest_path 0 0 line5_TF _ _)).
  - apply Forall_forall. by_compute.
  - intros u v Hu Hv.
    assert (Hall : Forall (λ u, Forall (λ v,
                     discordant (graph_at line5_TF 0) u v →
                     path_or_no_path (nx_shortest_path (graph_at line5_TF 0) u v))
                     (list_at line5_TF 0).*1) (list_at line5_TF 0).*1)
      by by_compute.
    exact (proj1 (Forall_forall _ _) (proj1 (Forall_forall _ _) Hall u Hu) v Hv).
Defined.

(** C7, as the claim has it, fails: on the graph 0 - 1 - 2 without labels and
    the labeled set [(0, True), (1, False)] the search does not return a
    path, it raises [KeyError] at the first label it looks up. *)
Lemma find_ssp_counterexample :
  ¬ find_ssp_spec nx_shortest_path 0 0 line3_stale.
Proof.
  intros (r & Hret & _). vm_compute in Hret. discriminate Hret.
Qed.

Lemma find_mssp_midpoint_witness :
  find_ssp nx_shortest_path 0 0 line5_TF = Return (Some [0; 1; 2; 3; 4], line5_TF) ∧
  find_mssp nx_shortest_path 0 0 line5_TF = Return (Some 2, line5_TF) ∧
  find_ssp nx_shortest_path 0 0 line2_TF = Return (Some [0; 1], line2_TF) ∧
  find_mssp nx_shortest_path 0 0 line2_TF = Return (Some 1, line2_TF).
Proof.
  assert (H5 : find_ssp nx_shortest_path 0 0 line5_TF
               = Return (Some [0; 1; 2; 3; 4], line5_TF)) by (vm_compute; reflexivity).
  assert (H2 : find_ssp nx_shortest_path 0 0 line2_TF
               = Return (Some [0; 1], line2_TF)) by (vm_compute; reflexivity).
  split_and!; [exact H5| |exact H2|].
  - destruct (proj1 (find_mssp_midpoint nx_shortest_path 0 0 line5_TF) _ _ H5)
      as (v & Hv & Hm); [simpl; lia|].
    injection Hv as <-. exact Hm.
  - exact (proj1 (proj2 (proj2 (find_mssp_midpoint nx_shortest_path 0 0 line2_TF)))
             _ _ _ H2).
Defined.

(** * Runs of [s2] *)

Section Runs.
Context `{Countable V}.
Variable shortest_path : Graph V → V → V → outcome (option (list V)).
Variable oracle : V → bool.
Variable rng : nat → nat.
Implicit Types (g : Graph V) (u v : V) (h : heap V) (c : config V).

Local Abbreviation step := (step shortest_path oracle rng).
Local Abbreviation steps := (steps shortest_path oracle rng).
Local Abbreviation loop := (loop shortest_path oracle rng).
Local Abbreviation run_to := (run_to shortest_path oracle rng).
Local Abbreviation s2 := (s2 shortest_path oracle rng).
Local Abbreviation inv := (inv oracle).

Lemma step_at_Exit c h : at_pc c = Exit → step c h = Return (c, h).
Proof. intros Hpc. unfold step. by rewrite Hpc. Qed.

Lemma steps_at_Exit k c h : at_pc c = Exit → steps k c h = Return (c, h).
Proof.
  intros Hpc. induction k as [|k IH]; simpl; [done|].
  unfold mbind, M_bind. by rewrite step_at_Exit.
Qed.

Lemma loop_unfold fuel c h :
  at_pc c ≠ Exit →
  loop (S fuel) c h = match step c h with
                      | Return (c', h') => loop fuel c' h'
                      | Raise e => Raise e
                      | OutOfFuel => OutOfFuel
                      end.
Proof. intros Hpc. simpl. by destruct (at_pc c). Qed.

Lemma loop_at_Exit fuel c h : at_pc c = Exit → loop fuel c h = Return (c, h).
Proof. intros Hpc. destruct fuel; simpl; by rewrite Hpc. Qed.

Lemma loop_0 c h : at_pc c ≠ Exit → loop 0 c h = OutOfFuel.
Proof. intros Hpc. simpl. by destruct (at_pc c). Qed.

(** With enough fuel the loop does what the transitions do. *)
Lemma loop_steps_Return k c h c' h' fuel :
  steps k c h = Return (c', h') → at_pc c' = Exit → k ≤ fuel →
  loop fuel c h = Return (c', h').
Proof.
  revert c h fuel. induction k as [|k IH]; intros c h fuel; simpl.
  - intros [= <- <-] Hpc _. by apply loop_at_Exit.
  - intros (c1 & h1 & Hs & Hk)%M_bind_Return Hpc Hle.
    destruct (decide (at_pc c = Exit)) as [Hc|Hc].
    + rewrite step_at_Exit in Hs by done. simplify_eq.
      rewrite steps_at_Exit in Hk by done. simplify_eq. by apply loop_at_Exit.
    + destruct fuel as [|fuel]; [lia|]. rewrite loop_unfold, Hs by done.
      apply IH; [done..|lia].
Qed.

Lemma loop_steps_Raise k c h e fuel :
  steps k c h = Raise e → k ≤ fuel → loop fuel c h = Raise e.
Proof.
  revert c h fuel. induction k as [|k IH]; intros c h fuel; simpl; [done|].
  intros Hk Hle. destruct (decide (at_pc c = Exit)) as [Hc|Hc].
  - pose proof (steps_at_Exit (S k) c h Hc) as Hk'. simpl in Hk'. congruence.
  - destruct fuel as [|fuel]; [lia|]. rewrite loop_unfold by done.
    unfold mbind, M_bind in Hk.
    destruct (step c h) as [[c1 h1]| |]; [|done..].
    apply IH; [done|lia].
Qed.

Lemma loop_after_steps k c h c' h' fuel r :
  steps k c h = Return (c', h') → loop fuel c h = Return r →
  ∃ fuel', loop fuel' c' h' = Return r.
Proof.
  revert c h fuel. induction k as [|k IH]; intros c h fuel; simpl.
  - intros [= <- <-] Hl. by exists fuel.
  - intros (c1 & h1 & Hs & Hk)%M_bind_Return Hl.
    destruct (decide (at_pc c = Exit)) as [Hc|Hc].
    + rewrite step_at_Exit in Hs by done. simplify_eq. by eapply IH.
    + destruct fuel as [|fuel]; [by rewrite loop_0 in Hl|].
      rewrite loop_unfold, Hs in Hl by done. by eapply IH.
Qed.

Lemma s2_unfold fuel Gin h0 :
  s2 fuel Gin h0 = match start Gin h0 with
                   | Return (c0, h1) =>
                       match loop fuel c0 h1 with
                       | Return (c, h) => Return (cG c, h)
                       | Raise e => Raise e
                       | OutOfFuel => OutOfFuel
                       end
                   | Raise e => Raise e
                   | OutOfFuel => OutOfFuel
                   end.
Proof.
  unfold s2, mbind, M_bind. destruct (start Gin h0) as [[c0 h1]| |]; [|done..].
  by destruct (loop fuel c0 h1) as [[c h]| |].
Qed.

Lemma run_to_unfold k Gin h0 :
  run_to k Gin h0 = match start Gin h0 with
                    | Return (c0, h1) => steps k c0 h1
                    | Raise e => Raise e
                    | OutOfFuel => OutOfFuel
                    end.
Proof.
  unfold run_to, mbind, M_bind. by destruct (start Gin h0) as [[c0 h1]| |].
Qed.

(** A run that is at the exit after [k] transitions returns, on any fuel
    from [k]; a run that raises within [k] transitions raises. *)
Lemma s2_returns k Gin h0 c h fuel :
  run_to k Gin h0 = Return (c, h) → at_pc c = Exit → k ≤ fuel →
  s2 fuel Gin h0 = Return (cG c, h).
Proof.
  rewrite run_to_unfold, s2_unfold.
  destruct (start Gin h0) as [[c0 h1]| |]; [|done..]. intros Hk Hpc Hle.
  by rewrite (loop_steps_Return k c0 h1 c h fuel Hk Hpc Hle).
Qed.

Lemma s2_raises k Gin h0 e fuel :
  run_to k Gin h0 = Raise e → k ≤ fuel → s2 fuel Gin h0 = Raise e.
Proof.
  rewrite run_to_unfold, s2_unfold.
  destruct (start Gin h0) as [[c0 h1]| |]; [|intros ? _; by simplify_eq..].
  intros Hk Hle.
  by rewrite (loop_steps_Raise k c0 h1 e fuel Hk Hle).
Qed.

Lemma steps_after_Exit k j c h c' h' :
  steps k c h = Return (c', h') → at_pc c' = Exit →
  steps (k + j) c h = Return (c', h').
Proof.
  revert c h. induction k as [|k IH]; intros c h; simpl.
  - intros [= <- <-] Hpc. by apply steps_at_Exit.
  - intros (c1 & h1 & Hs & Hk)%M_bind_Return Hpc.
    unfold mbind, M_bind. rewrite Hs. by apply IH.
Qed.

Lemma run_to_after_Exit k k' Gin h0 c h :
  run_to k Gin h0 = Return (c, h) → at_pc c = Exit → k ≤ k' →
  run_to k' Gin h0 = Return (c, h).
Proof.
  rewrite !run_to_unfold.
  destruct (start Gin h0) as [[c0 h1]| |]; [|done..]. intros Hk Hpc Hle.
  replace k' with (k + (k' - k)) by lia. by apply steps_after_Exit.
Qed.

(** *** Past [len(L) == n] *)

Lemma step_overshot c h c' h' :
  overshot c h → step c h = Return (c', h') → overshot c' h'.
Proof.
  intros (Hv & Hpc & Hlen) Hs. pose proof (step_valid _ _ _ _ _ _ _ Hv Hs) as Hv'.
  destruct (at_pc c) as [|vert|] eqn:Hc; [| |done].
  - apply step_Outer in Hs as (-> & HG & HL & Hn & _ & Hcase); [|done].
    unfold overshot, labels_of in *. rewrite HL, Hn.
    destruct Hcase as [[_ ?]|[vert [Hpc' _]]]; [lia|]. by rewrite Hpc'.
  - eapply step_Inner in Hs
      as (gl & cuts & _ & _ & _ & _ & _ & Hl & Hpc' & _ & _ & Hn & _); [|done..].
    unfold overshot. rewrite Hl, Hn, length_app. simpl.
    split_and!; [done..|]. unfold labels_of in *. lia.
Qed.

Lemma loop_overshot fuel c h r : overshot c h → loop fuel c h ≠ Return r.
Proof.
  revert c h. induction fuel as [|fuel IH]; intros c h Ho.
  - rewrite loop_0; [done|]. apply Ho.
  - rewrite loop_unfold by apply Ho.
    destruct (step c h) as [[c1 h1]| |] eqn:Hs; [|done..].
    apply IH. by eapply step_overshot.
Qed.

(** A run that reaches a configuration with [len(L) > n] never returns. *)
Lemma s2_overshot k Gin h0 c h :
  run_to k Gin h0 = Return (c, h) → overshot c h →
  ∀ fuel r, s2 fuel Gin h0 ≠ Return r.
Proof.
  rewrite run_to_unfold. intros Hk Ho fuel r. rewrite s2_unfold.
  destruct (start Gin h0) as [[c0 h1]| |]; [|done..].
  destruct (loop fuel c0 h1) as [[c1 h2]| |] eqn:Hl; [|done..].
  destruct (loop_after_steps _ _ _ _ _ _ _ Hk Hl) as [fuel' Hl'].
  by apply loop_overshot in Hl'.
Qed.

(** *** The count of queries at the exit *)

Lemma step_exit_count c h c' h' :
  (at_pc c = Exit → length (labels_of c h) = cn c) → valid c h →
  step c h = Return (c', h') →
  at_pc c' = Exit → length (labels_of c' h') = cn c'.
Proof.
  intros Hc Hv Hs Hpc'. destruct (at_pc c) as [|vert|] eqn:Hpc.
  - apply step_Outer in Hs as (-> & HG & HL & Hn & _ & Hcase); [|done].
    unfold labels_of in *. rewrite HL, Hn.
    destruct Hcase as [[_ ?]|[vert [? _]]]; [done|congruence].
  - eapply step_Inner in Hs
      as (gl & cuts & _ & _ & _ & _ & _ & _ & ? & _); [|done..]. done.
  - apply step_Exit in Hs as [-> ->]; auto.
Qed.

(** A run that returns has asked the oracle [n] times, [n] the number of
    vertices. *)
Lemma run_to_exit_count h0 Gin k c h :
  Gin < length (graphs h0) → run_to k Gin h0 = Return (c, h) →
  at_pc c = Exit → length (asked c) = order (graph_at h0 Gin).
Proof.
  intros HGin Hrun Hpc.
  pose proof (run_to_inv _ _ _ _ _ _ _ _ HGin Hrun)
    as (_ & _ & _ & _ & _ & _ & Hn & _ & _ & _ & _ & _ & _ & Hasked).
  rewrite Hasked, length_fmap, <-Hn. revert Hpc.
  rewrite run_to_unfold in Hrun.
  destruct (start Gin h0) as [[c0 h1]| |] eqn:Hstart; [|done..].
  pose proof (start_inv oracle _ _ _ _ HGin Hstart)
    as (_ & _ & _ & _ & _ & Hv0 & _).
  assert (Hc0 : at_pc c0 = Exit → length (labels_of c0 h1) = cn c0).
  { unfold start, copy, mbind, M_bind, mret, M_ret, get_graph, new_graph,
      new_list in Hstart. simpl in Hstart. by simplify_eq. }
  clear Hstart. revert c0 h1 Hrun Hv0 Hc0.
  induction k as [|k IH]; intros c0 h1; simpl.
  - by intros [= <- <-].
  - intros (c1 & h2 & Hs & Hk)%M_bind_Return Hv0 Hc0. apply (IH c1 h2 Hk).
    + by eapply step_valid.
    + by eapply step_exit_count.
Qed.

(** *** Runs that query no vertex twice *)

Lemma step_progress c h c' h' :
  valid c h → step c h = Return (c', h') → at_pc c' ≠ Exit →
  S (progress c) ≤ progress c'.
Proof.
  intros Hv Hs Hpc'. unfold progress.
  destruct (at_pc c) as [|vert|] eqn:Hpc.
  - apply step_Outer in Hs as (_ & _ & _ & _ & -> & Hcase); [|done].
    destruct Hcase as [[? _]|[vert [-> _]]]; [done|lia].
  - eapply step_Inner in Hs
      as (gl & cuts & _ & _ & _ & _ & _ & _ & _ & _ & _ & _ & ->); [|done..].
    rewrite length_app. simpl. destruct (at_pc c'); lia.
  - apply step_Exit in Hs as [-> ->]; [|done]. congruence.
Qed.

Lemma steps_progress k c h c' h' :
  valid c h → steps k c h = Return (c', h') → at_pc c' ≠ Exit →
  progress c + k ≤ progress c'.
Proof.
  revert c h. induction k as [|k IH]; intros c h Hv; simpl.
  - intros [= <- <-] _. lia.
  - intros (c1 & h1 & Hs & Hk)%M_bind_Return Hpc'.
    pose proof (step_valid _ _ _ _ _ _ _ Hv Hs) as Hv1.
    specialize (IH c1 h1 Hv1 Hk Hpc').
    destruct (decide (at_pc c1 = Exit)) as [Hc1|Hc1].
    + rewrite steps_at_Exit in Hk by done. congruence.
    + pose proof (step_progress _ _ _ _ Hv Hs Hc1). lia.
Qed.

Lemma run_to_progress h0 Gin k c h :
  Gin < length (graphs h0) → run_to k Gin h0 = Return (c, h) →
  at_pc c ≠ Exit → k ≤ progress c.
Proof.
  intros HGin Hrun Hpc. rewrite run_to_unfold in Hrun.
  destruct (start Gin h0) as [[c0 h1]| |] eqn:Hstart; [|done..].
  pose proof (start_inv oracle _ _ _ _ HGin Hstart)
    as (_ & _ & _ & _ & _ & Hv0 & _).
  pose proof (steps_progress _ _ _ _ _ Hv0 Hrun Hpc) as Hk.
  assert (progress c0 = 0); [|lia].
  unfold start, copy, mbind, M_bind, mret, M_ret, get_graph, new_graph,
    new_list in Hstart. simpl in Hstart. by simplify_eq.
Qed.

(** The queries of a run are of vertices of the graph. *)
Lemma run_to_asked_nodes h0 Gin k c h v :
  Gin < length (graphs h0) → run_to k Gin h0 = Return (c, h) →
  v ∈ asked c → v ∈ nodes (graph_at h0 Gin).
Proof.
  intros HGin Hrun Hv.
  pose proof (run_to_inv _ _ _ _ _ _ _ _ HGin Hrun)
    as (_ & _ & _ & _ & _ & _ & _ & Hnode & _ & _ & _ & Hlab & _ & Hasked).
  rewrite Hasked in Hv. apply list_elem_of_fmap in Hv as ([v' b] & -> & Hin).
  destruct (Hlab _ _ Hin) as [_ Hvb]. simpl.
  assert (v' ∈ dom (node (graph_at h0 Gin))) as [a Ha]%elem_of_dom.
  { rewrite <-Hnode. by apply elem_of_dom. }
  unfold nodes. apply list_elem_of_fmap. exists (v', a).
  split; [done|]. by apply elem_of_map_to_list.
Qed.

(** What C1 says does hold of the runs in which no transition raises and no
    vertex is queried twice: such a run returns, within [2 n + 2] transitions,
    and has queried every vertex once. *)
Lemma s2_terminates_when_fresh h0 Gin :
  Gin < length (graphs h0) →
  (∀ k, ∃ c h, run_to k Gin h0 = Return (c, h) ∧ NoDup (asked c)) →
  ∃ c h,
    run_to (2 * order (graph_at h0 Gin) + 2) Gin h0 = Return (c, h) ∧
    at_pc c = Exit ∧
    asked c ≡ₚ nodes (graph_at h0 Gin) ∧
    ∀ fuel, 2 * order (graph_at h0 Gin) + 2 ≤ fuel →
            s2 fuel Gin h0 = Return (cG c, h).
Proof.
  intros HGin Hfresh. set (n := order (graph_at h0 Gin)).
  destruct (Hfresh (2 * n + 2)) as (c & h & Hrun & Hnd).
  assert (Hsub : asked c ⊆+ nodes (graph_at h0 Gin)).
  { apply NoDup_submseteq; [done|]. intros v. by eapply run_to_asked_nodes. }
  assert (Hn : length (nodes (graph_at h0 Gin)) = n).
  { unfold nodes, n, order. by rewrite length_fmap, length_map_to_list. }
  assert (Hpc : at_pc c = Exit).
  { destruct (decide (at_pc c = Exit)) as [|Hpc]; [done|].
    pose proof (run_to_progress _ _ _ _ _ HGin Hrun Hpc) as Hk.
    apply submseteq_length in Hsub. rewrite Hn in Hsub.
    unfold progress in Hk. destruct (at_pc c); lia. }
  exists c, h. split_and!; [done..| |].
  - apply submseteq_length_Permutation; [done|].
    rewrite Hn. by rewrite (run_to_exit_count _ _ _ _ _ HGin Hrun Hpc).
  - intros fuel Hfuel. by eapply s2_returns.
Qed.

End Runs.

(** * What every run of [s2] keeps *)

Section RunClaims.
Context `{Countable V}.
Variable shortest_path : Graph V → V → V → outcome (option (list V)).
Variable oracle : V → bool.
Variable rng : nat → nat.
Implicit Types (g : Graph V) (u v : V) (h : heap V) (c : config V).

Local Abbreviation run_to := (run_to shortest_path oracle rng).
Local Abbreviation s2 := (s2 shortest_path oracle rng).

Lemma inv_labeled_oracle h0 Gin c h v :
  inv oracle h0 Gin c h → v ∈ (labels_of c h).*1 →
  node (working c h) !! v = Some (Some (oracle v)).
Proof.
  intros (_ & _ & _ & _ & _ & _ & _ & _ & _ & _ & _ & Hlab & _) Hv.
  apply list_elem_of_fmap in Hv as ([v' b] & -> & Hin).
  by destruct (Hlab _ _ Hin) as [-> ?].
Qed.

Lemma inv_lost_discordant h0 Gin c h u v :
  inv oracle h0 Gin c h →
  v ∈ neighbors (graph_at h0 Gin) u → v ∉ neighbors (working c h) u →
  discordant (working c h) u v.
Proof.
  intros Hinv Hin Hout.
  pose proof Hinv as (_ & _ & _ & _ & _ & _ & _ & _ & _ & _ & Hcut & _).
  destruct (Hcut _ _ Hin Hout) as (Hu & Hv & Hne).
  exists (oracle u), (oracle v). eauto using inv_labeled_oracle.
Qed.

(** C2: of every run of [s2] that returns, every edge of the input graph that
    is missing from the returned graph joins two vertices whose labels on the
    returned graph differ; an edge between two vertices that carry the same
    label on the returned graph is still there. *)
Theorem s2_removed_edges_discordant fuel (Gin Gret : gref) h0 h' :
  Gin < length (graphs h0) →
  s2 fuel Gin h0 = Return (Gret, h') →
  (∀ u v, v ∈ neighbors (graph_at h0 Gin) u →
          v ∉ neighbors (graph_at h' Gret) u →
          discordant (graph_at h' Gret) u v) ∧
  (∀ u v (b : bool), v ∈ neighbors (graph_at h0 Gin) u →
          node (graph_at h' Gret) !! u = Some (Some b) →
          node (graph_at h' Gret) !! v = Some (Some b) →
          v ∈ neighbors (graph_at h' Gret) u).
Proof.
  intros HGin (k & c & Hrun & _ & <-)%s2_Return.
  pose proof (run_to_inv _ _ _ _ _ _ _ _ HGin Hrun) as Hinv.
  assert (Hlost : ∀ u v, v ∈ neighbors (graph_at h0 Gin) u →
            v ∉ neighbors (graph_at h' (cG c)) u →
            discordant (graph_at h' (cG c)) u v).
  { intros u v. by apply (inv_lost_discordant h0 Gin c h'). }
  split; [done|]. intros u v b Hin Hu Hv.
  destruct (decide (v ∈ neighbors (graph_at h' (cG c)) u)) as [|Hout]; [done|].
  destruct (Hlost _ _ Hin Hout) as (a1 & a2 & ? & ? & ?). congruence.
Qed.

(** C8: in every configuration of a run of [s2], and in the heap it returns
    in, the objects of the caller are what they were at the call, the input
    graph among them; the graph that the run works on and returns is another
    object. *)
Theorem s2_input_unchanged (Gin : gref) h0 :
  Gin < length (graphs h0) →
  (∀ k c h, run_to k Gin h0 = Return (c, h) →
            heap_frame h0 h ∧ graphs h !! Gin = graphs h0 !! Gin ∧ cG c ≠ Gin) ∧
  (∀ fuel Gret h', s2 fuel Gin h0 = Return (Gret, h') →
            heap_frame h0 h' ∧ graphs h' !! Gin = graphs h0 !! Gin ∧ Gret ≠ Gin).
Proof.
  intros HGin.
  assert (Hrun : ∀ k c h, run_to k Gin h0 = Return (c, h) →
            heap_frame h0 h ∧ graphs h !! Gin = graphs h0 !! Gin ∧ cG c ≠ Gin).
  { intros k c h Hrun.
    pose proof (run_to_inv _ _ _ _ _ _ _ _ HGin Hrun)
      as (_ & HG & _ & Hgs & Hls & _).
    split_and!.
    - split.
      + rewrite <-Hgs at 1. apply prefix_take.
      + rewrite <-Hls at 1. apply prefix_take.
    - rewrite <-Hgs at 1. by rewrite lookup_take_lt.
    - lia. }
  split; [done|]. intros fuel Gret h' (k & c & Hk & _ & <-)%s2_Return. eauto.
Qed.

(** C9: in every configuration of a run of [s2] the working graph has the
    vertices of the input graph, in [node] and in [adj]; its edges are edges
    of the input graph, and an edge of the input graph that it lacks is a cut
    edge, between two labeled vertices of different labels. *)
Theorem s2_vertices_unchanged (Gin : gref) h0 k c h :
  Gin < length (graphs h0) →
  run_to k Gin h0 = Return (c, h) →
  dom (node (working c h)) = dom (node (graph_at h0 Gin)) ∧
  dom (adj (working c h)) = dom (adj (graph_at h0 Gin)) ∧
  order (working c h) = order (graph_at h0 Gin) ∧
  (∀ u v, v ∈ neighbors (working c h) u → v ∈ neighbors (graph_at h0 Gin) u) ∧
  (∀ u v, v ∈ neighbors (graph_at h0 Gin) u → v ∉ neighbors (working c h) u →
          discordant (working c h) u v).
Proof.
  intros HGin Hrun.
  pose proof (run_to_inv _ _ _ _ _ _ _ _ HGin Hrun) as Hinv.
  pose proof Hinv as (_ & _ & _ & _ & _ & _ & _ & Hnode & Hadj & Hsub & _).
  split_and!; try done.
  - unfold order. by rewrite <-!size_dom, Hnode.
  - intros u v. by apply (inv_lost_discordant h0 Gin c h).
Qed.

(** C10, as amended: when no vertex of the input graph carries a label
    attribute, in every configuration of a run of [s2] (the oracle being a
    function) every pair [(v, y)] of the labeled set has [y] as the label
    attribute of [v] on the working graph, and every vertex of the working
    graph that carries a label attribute is in the labeled set. *)
Theorem s2_labels_consistent (Gin : gref) h0 k c h :
  Gin < length (graphs h0) →
  (∀ v, ¬ labeled (graph_at h0 Gin) v) →
  run_to k Gin h0 = Return (c, h) →
  consistent (working c h) (labels_of c h).
Proof.
  intros HGin Hfresh Hrun.
  pose proof (run_to_inv _ _ _ _ _ _ _ _ HGin Hrun)
    as (_ & _ & _ & _ & _ & _ & _ & _ & _ & _ & _ & Hlab & Honly & _).
  split.
  - intros v b Hin. by apply Hlab.
  - intros v [b Hb]. destruct (Honly _ _ Hb) as [|Hin0]; [done|].
    destruct (Hfresh v). by exists b.
Qed.

End RunClaims.

(** ** The runs on small graphs *)

Lemma s2_removed_edges_discordant_witness :
  ∃ Gret h',
    s2 nx_shortest_path below2 in_turn 7 0 line3_heap = Return (Gret, h') ∧
    2 ∈ neighbors (graph_at line3_heap 0) 1 ∧
    (2 ∉ neighbors (graph_at h' Gret) 1) ∧
    discordant (graph_at h' Gret) 1 2.
Proof.
  destruct (s2 nx_shortest_path below2 in_turn 7 0 line3_heap)
    as [[Gret h']| |] eqn:E; [|vm_compute in E; discriminate E..].
  exists Gret, h'. split; [reflexivity|].
  assert (Hin : 2 ∈ neighbors (graph_at line3_heap 0) 1) by by_compute.
  assert (Hout : 2 ∉ neighbors (graph_at h' Gret) 1).
  { vm_compute in E. injection E as <- <-. by_compute. }
  split_and!; [exact Hin|exact Hout|].
  refine (proj1 (s2_removed_edges_discordant nx_shortest_path below2 in_turn
                   7 0 Gret line3_heap h' _ E) 1 2 Hin Hout).
  vm_compute. lia.
Defined.

Lemma s2_input_unchanged_witness :
  ∃ Gret h',
    s2 nx_shortest_path below2 in_turn 7 0 line3_heap = Return (Gret, h') ∧
    graphs h' !! 0 = Some line3 ∧ Gret ≠ 0.
Proof.
  destruct (s2 nx_shortest_path below2 in_turn 7 0 line3_heap)
    as [[Gret h']| |] eqn:E; [|vm_compute in E; discriminate E..].
  exists Gret, h'. split; [reflexivity|].
  assert (Hlen : 0 < length (graphs line3_heap)) by (vm_compute; lia).
  destruct (proj2 (s2_input_unchanged nx_shortest_path below2 in_turn
                     0 line3_heap Hlen) 7 Gret h' E) as (_ & Hsame & Hne).
  split; [exact Hsame|exact Hne].
Defined.

Lemma s2_vertices_unchanged_witness :
  ∃ c h,
    run_to nx_shortest_path below2 in_turn 4 0 line3_heap = Return (c, h) ∧
    dom (node (working c h)) = dom (node line3) ∧
    order (working c h) = 3.
Proof.
  destruct (run_to nx_shortest_path below2 in_turn 4 0 line3_heap)
    as [[c h]| |] eqn:E; [|vm_compute in E; discriminate E..].
  exists c, h. split; [reflexivity|].
  assert (Hlen : 0 < length (graphs line3_heap)) by (vm_compute; lia).
  destruct (s2_vertices_unchanged nx_shortest_path below2 in_turn
              0 line3_heap 4 c h Hlen E) as (Hnode & _ & Horder & _).
  split; [exact Hnode|exact Horder].
Defined.

Lemma s2_labels_consistent_witness :
  ∃ c h,
    run_to nx_shortest_path below2 in_turn 4 0 line3_heap = Return (c, h) ∧
    consistent (working c h) (labels_of c h).
Proof.
  destruct (run_to nx_shortest_path below2 in_turn 4 0 line3_heap)
    as [[c h]| |] eqn:E; [|vm_compute in E; discriminate E..].
  exists c, h. split; [reflexivity|].
  assert (Hlen : 0 < length (graphs line3_heap)) by (vm_compute; lia).
  apply (s2_labels_consistent nx_shortest_path below2 in_turn
           0 line3_heap 4 c h Hlen); [|exact E].
  intros v [b Hb]. change (graph_at line3_heap 0) with line3 in Hb.
  assert (Hnone : map_Forall (λ _ a, a = None) (node line3)) by by_compute.
  pose proof (Hnone v _ Hb) as Hv. discriminate Hv.
Defined.

(** C10, as the claim has it, fails: on the input graph 0 - 1 - 2 whose
    vertex 2 carries a label already, after the first query (of vertex 0) the
    vertex 2 of the working graph carries a label and is not in the labeled
    set. *)
Lemma s2_labels_consistent_counterexample :
  ¬ (∀ c h,
       run_to nx_shortest_path below2 (always 2) 2 0 line3_prelabeled
       = Return (c, h) →
       consistent (working c h) (labels_of c h)).
Proof.
  intros Hclaim.
  destruct (run_to nx_shortest_path below2 (always 2) 2 0 line3_prelabeled)
    as [[c h]| |] eqn:E; [|vm_compute in E; discriminate E..].
  destruct (Hclaim c h eq_refl) as [_ Honly].
  vm_compute in E. injection E as <- <-.
  assert (Hin := Honly 2 ltac:(by_compute)).
  revert Hin. by_compute.
Qed.

(** C1 fails on the code.  [random.choice(G.nodes())] draws among all the
    vertices, labeled or not, and the loop ends when [len(L) == n].  On the
    graph 0 - 1 - 2 with an oracle that tells 2 from 0 and 1:
    - when the draw is vertex 0 three times, the run returns after three
      queries of vertex 0, the vertices 1 and 2 never queried nor labeled;
    - when the draws are 0, 0, 2, the third pass queries 2 and then the
      midpoint 1, [L] has four entries, and the run never returns, whatever
      the fuel. *)
Theorem s2_reseed_defect :
  (∃ c h,
     run_to nx_shortest_path below2 (always 2) 7 0 line3_heap = Return (c, h) ∧
     at_pc c = Exit ∧ asked c = [0; 0; 0] ∧
     ¬ labeled (working c h) 1 ∧ ¬ labeled (working c h) 2 ∧
     ∀ fuel, 7 ≤ fuel →
       s2 nx_shortest_path below2 (always 2) fuel 0 line3_heap
       = Return (cG c, h)) ∧
  (∃ c h,
     run_to nx_shortest_path below2 draws_220 8 0 line3_heap = Return (c, h) ∧
     asked c = [0; 0; 2; 1] ∧
     ∀ fuel r,
       s2 nx_shortest_path below2 draws_220 fuel 0 line3_heap ≠ Return r).
Proof.
  split.
  - destruct (run_to nx_shortest_path below2 (always 2) 7 0 line3_heap)
      as [[c h]| |] eqn:E; [|vm_compute in E; discriminate E..].
    exists c, h. split; [reflexivity|].
    assert (Hpc : at_pc c = Exit).
    { vm_compute in E. by injection E as <- <-. }
    split_and!; [exact Hpc| | | |].
    + vm_compute in E. by injection E as <- <-.
    + vm_compute in E. injection E as <- <-. by_compute.
    + vm_compute in E. injection E as <- <-. by_compute.
    + intros fuel Hfuel. by apply (s2_returns _ _ _ 7).
  - destruct (run_to nx_shortest_path below2 draws_220 8 0 line3_heap)
      as [[c h]| |] eqn:E; [|vm_compute in E; discriminate E..].
    exists c, h. split; [reflexivity|]. split.
    + vm_compute in E. by injection E as <- <-.
    + apply (s2_overshot _ _ _ 8 0 line3_heap c h E).
      vm_compute in E. injection E as <- <-.
      unfold overshot, valid, labels_of, list_at. simpl. split_and!; [lia..|done|lia].
Qed.

(** C5 fails on the code.  The docstring of [s2] has the shortest-path
    function return [None] when there is no path; [find_ssp] catches the
    exception [NetworkXNoPath] only.  On the graph 0 - 1 with an oracle that
    tells 0 from 1, once both are queried the edge is cut, the function
    returns [None] for the pair, and [min] raises [TypeError]: the run
    aborts. *)
Theorem s2_None_path_raises :
  ∀ fuel,
    s2 none_shortest_path only0 in_turn (4 + fuel) 0 line2_heap = Raise TypeError.
Proof.
  intros fuel. apply (s2_raises _ _ _ 4); [|lia].
  vm_compute. reflexivity.
Qed.

(** A run in which no vertex is queried twice: the draws are the vertices 2,
    1 and 0 of the graph 0 - 1 - 2. *)
Lemma line3_in_turn_fresh :
  ∀ k, ∃ c h,
    run_to nx_shortest_path below2 in_turn k 0 line3_heap = Return (c, h) ∧
    NoDup (asked c).
Proof.
  assert (Hk : ∀ k, k ≤ 7 → ∃ c h,
            run_to nx_shortest_path below2 in_turn k 0 line3_heap = Return (c, h) ∧
            NoDup (asked c) ∧ (k = 7 → at_pc c = Exit)).
  { intros k Hle.
    do 8 (destruct k as [|k];
      [destruct (run_to nx_shortest_path below2 in_turn _ 0 line3_heap)
         as [[c h]| |] eqn:E; [|vm_compute in E; discriminate E..];
       exists c, h; vm_compute in E; injection E as <- <-;
       split_and!; [done|by_compute|by intros [=] || done]|]).
    lia. }
  intros k. destruct (decide (k ≤ 7)) as [Hle|Hgt].
  - destruct (Hk k Hle) as (c & h & ? & ? & _). by exists c, h.
  - destruct (Hk 7 (le_n _)) as (c & h & Hrun & Hnd & Hpc).
    exists c, h. split; [|done].
    apply (run_to_after_Exit _ _ _ 7); [done|by apply Hpc|lia].
Qed.

Example line3_in_turn_terminates :
  ∃ c h,
    run_to nx_shortest_path below2 in_turn 8 0 line3_heap = Return (c, h) ∧
    at_pc c = Exit ∧ asked c ≡ₚ nodes line3.
Proof.
  destruct (s2_terminates_when_fresh nx_shortest_path below2 in_turn
              line3_heap 0) as (c & h & Hrun & Hpc & Hperm & _).
  - vm_compute. lia.
  - exact line3_in_turn_fresh.
  - exists c, h. split_and!; [exact Hrun|exact Hpc|exact Hperm].
Qed.

(** * Errors and edge cases of the three procedures *)

Section MoreCutInference.
Context `{Countable V}.
Implicit Types (g : Graph V) (u v : V) (h : heap V) (e : edge V).

Lemma getitem_label_cases g v :
  (∃ b : bool, getitem_label g v = Return b ∧ node g !! v = Some (Some b)) ∨
  (getitem_label g v = Raise KeyError ∧ ¬ labeled g v).
Proof.
  unfold getitem_label, labeled.
  destruct (node g !! v) as [[b|]|]; [left; eauto|right..];
    (split; [done|]); by intros [? ?].
Qed.

Lemma cut_loop_Raise g (es : list (edge V)) acc e :
  e ∈ es → ¬ (labeled g e.1 ∧ labeled g e.2) →
  cut_loop g es acc = Raise KeyError.
Proof.
  revert acc. induction es as [|e' es IH]; intros acc Hin Hbad;
    [by apply elem_of_nil in Hin|].
  simpl.
  destruct (getitem_label_cases g e'.1) as [(a & -> & Ha)|[-> _]]; [|done].
  destruct (getitem_label_cases g e'.2) as [(b & -> & Hb)|[-> _]]; [|done].
  simpl. apply elem_of_cons in Hin as [->|Hin]; [|by apply IH].
  destruct Hbad. split; [by exists a|by exists b].
Qed.

(** X1: the lookups of [find_obvious_cuts] are of the endpoints of the edges
    between two listed vertices: the call returns when each of them carries a
    label attribute, and raises [KeyError] when one does not.  A listed vertex
    without label attribute that is adjacent to no listed vertex goes
    unnoticed. *)
Theorem find_obvious_cuts_KeyError (G : gref) (L : lref) h :
  let g := graph_at h G in
  let ns := (list_at h L).*1 in
  wf_graph g →
  ((∀ u v, u ∈ ns → v ∈ ns → v ∈ neighbors g u → labeled g u) →
   ∃ cuts h', find_obvious_cuts G (Some L) h = Return (cuts, h')) ∧
  ((∃ u v, u ∈ ns ∧ v ∈ ns ∧ v ∈ neighbors g u ∧ ¬ labeled g u) →
   find_obvious_cuts G (Some L) h = Raise KeyError).
Proof.
  intros g ns Hwf. rewrite find_obvious_cuts_unfold. simpl. fold g ns. split.
  - intros Hlab.
    destruct (cut_loop_total g (edges_iter (subgraph g ns)) []) as [cuts Hcuts].
    { intros [a b] (Ha & Hb & Hn)%elem_of_edges_iter%neighbors_subgraph.
      simpl. split; [by apply (Hlab a b)|].
      apply (Hlab b a); [done..|]. by apply wf_graph_sym. }
    rewrite Hcuts. by eexists _, _.
  - intros (u & v & Hu & Hv & Hn & Hbad).
    assert (Hsub : v ∈ neighbors (subgraph g ns) u) by by apply neighbors_subgraph.
    destruct (edges_iter_complete (subgraph g ns) u v) as [He|He]; [|done| |].
    + intros a b (? & ? & ?%(wf_graph_sym g))%neighbors_subgraph; [|done].
      by apply neighbors_subgraph.
    + rewrite (cut_loop_Raise g _ [] (u, v) He); [done|]. simpl. tauto.
    + rewrite (cut_loop_Raise g _ [] (v, u) He); [done|]. simpl. tauto.
Qed.

Lemma labeled_dom g v : labeled g v → v ∈ dom (node g).
Proof. intros [b Hb]. by apply elem_of_dom. Qed.

Lemma wf_graph_dom g u v : wf_graph g → v ∈ neighbors g u → u ∈ dom (node g).
Proof.
  intros [Hdom _] Hv. rewrite <-Hdom. apply elem_of_dom. unfold neighbors in Hv.
  destruct (adj g !! u); [done|]. simpl in Hv. set_solver.
Qed.



End MoreCutInference.

Section MoreSearch.
Context `{Countable V}.
Variable shortest_path : Graph V → V → V → outcome (option (list V)).
Implicit Types (g : Graph V) (u v : V) (h : heap V) (p q : list V).

Local Abbreviation path_loop := (path_loop shortest_path).
Local Abbreviation find_ssp := (find_ssp shortest_path).
Local Abbreviation find_mssp := (find_mssp shortest_path).

Lemma path_loop_total g (pairs : list (V * V)) paths :
  (∀ uv, uv ∈ pairs → labeled g uv.1 ∧ labeled g uv.2) →
  (∀ uv, uv ∈ pairs → discordant g uv.1 uv.2 →
         answers (shortest_path g uv.1 uv.2)) →
  ∃ ps, path_loop g pairs paths = Return ps.
Proof.
  revert paths. induction pairs as [|[u v] rest IH]; intros paths Hlab Hsp; simpl;
    [eauto|].
  destruct (Hlab (u, v)) as [[a Ha] [b Hb]]; [by left|]. simpl in *.
  rewrite (proj2 (getitem_label_Return g u a) Ha),
    (proj2 (getitem_label_Return g v b) Hb). simpl.
  assert (Hrest : ∀ ps, ∃ ps', path_loop g rest ps = Return ps').
  { intros ps. apply IH; intros uv Huv; [apply Hlab|apply Hsp]; by right. }
  case_bool_decide as Hab; [|done].
  assert (Hd : discordant g u v) by (by exists a, b).
  pose proof (Hsp (u, v) (list_elem_of_here _ _) Hd) as Hans. simpl in Hans.
  destruct (shortest_path g u v) as [P|[]|]; done.
Qed.

Lemma path_loop_KeyError g (pairs : list (V * V)) paths uv :
  uv ∈ pairs → ¬ (labeled g uv.1 ∧ labeled g uv.2) →
  (∀ uv, uv ∈ pairs → discordant g uv.1 uv.2 →
         answers (shortest_path g uv.1 uv.2)) →
  path_loop g pairs paths = Raise KeyError.
Proof.
  revert paths. induction pairs as [|[u v] rest IH]; intros paths Hin Hbad Hsp;
    [by apply elem_of_nil in Hin|].
  simpl.
  destruct (getitem_label_cases g u) as [(a & -> & Ha)|[-> _]]; [|done].
  destruct (getitem_label_cases g v) as [(b & -> & Hb)|[-> _]]; [|done].
  simpl. apply elem_of_cons in Hin as [->|Hin].
  { destruct Hbad. split; [by exists a|by exists b]. }
  assert (Hrest : ∀ ps, path_loop g rest ps = Raise KeyError).
  { intros ps. apply IH; [done..|]. intros uv' Huv'. apply Hsp. by right. }
  case_bool_decide as Hab; [|done].
  assert (Hd : discordant g u v) by (by exists a, b).
  pose proof (Hsp (u, v) (list_elem_of_here _ _) Hd) as Hans. simpl in Hans.
  destruct (shortest_path g u v) as [P|[]|]; done.
Qed.

(** Every element of a list of two or more is in a pair. *)
Lemma combinations2_covers {A} (xs : list A) (a : A) :
  a ∈ xs → 2 ≤ length xs →
  ∃ b, (a, b) ∈ combinations2 xs ∨ (b, a) ∈ combinations2 xs.
Proof.
  intros [i Hi]%list_elem_of_lookup Hlen.
  destruct i as [|i].
  - destruct (lookup_lt_is_Some_2 xs 1) as [b Hb]; [lia|].
    exists b. left. apply elem_of_combinations2. exists 0, 1. split_and!; [lia|done..].
  - destruct (lookup_lt_is_Some_2 xs 0) as [b Hb]; [lia|].
    exists b. right. apply elem_of_combinations2. exists 0, (S i).
    split_and!; [lia|done..].
Qed.

(** X3: [find_ssp] looks up the label attribute of both vertices of every pair,
    before it compares them: on a labeled set of two or more entries one of
    whose vertices carries no label attribute on the graph (or is no vertex
    of it) the call raises [KeyError], whatever the other vertices are. *)
Theorem find_ssp_KeyError (G : gref) (L : lref) h v :
  let g := graph_at h G in
  let ns := (list_at h L).*1 in
  2 ≤ length ns → v ∈ ns → ¬ labeled g v →
  (∀ u w, u ∈ ns → w ∈ ns → discordant g u w → answers (shortest_path g u w)) →
  find_ssp G L h = Raise KeyError.
Proof.
  intros g ns Hlen Hv Hbad Hsp. rewrite find_ssp_unfold. fold g ns.
  destruct (combinations2_covers ns v Hv Hlen) as [w Hw].
  assert (∃ uv, uv ∈ combinations2 ns ∧ ¬ (labeled g uv.1 ∧ labeled g uv.2))
    as (uv & Huv & Huvbad).
  { destruct Hw as [Hw|Hw]; eexists; (split; [exact Hw|]); simpl; tauto. }
  rewrite (path_loop_KeyError g _ [] uv Huv Huvbad); [done|].
  intros [u w'] [? ?]%combinations2_elem_of. by apply Hsp.
Qed.

(** X4: [find_ssp] catches the exception [NetworkXNoPath] and nothing else.  When
    the shortest-path function returns the value [None] for one discordant
    pair, the value is kept as a path, and [min] raises [TypeError] at its
    length: the call raises, whatever paths the other pairs have. *)
Theorem find_ssp_None_TypeError (G : gref) (L : lref) h u v :
  let g := graph_at h G in
  let ns := (list_at h L).*1 in
  (∀ w, w ∈ ns → labeled g w) →
  (∀ a b, a ∈ ns → b ∈ ns → discordant g a b → answers (shortest_path g a b)) →
  (u, v) ∈ combinations2 ns → discordant g u v →
  shortest_path g u v = Return None →
  find_ssp G L h = Raise TypeError ∧ find_mssp G L h = Raise TypeError.
Proof.
  intros g ns Hlab Hsp Hin Hd Hnone.
  assert (Hssp : find_ssp G L h = Raise TypeError).
  { rewrite find_ssp_unfold. fold g ns.
    destruct (path_loop_total g (combinations2 ns) []) as [ps Hps].
    - intros [a b] [? ?]%combinations2_elem_of. auto.
    - intros [a b] [? ?]%combinations2_elem_of. by apply Hsp.
    - rewrite Hps.
      pose proof (path_loop_appends_None _ _ _ _ _ _ _ Hin Hd Hnone Hps) as Hn.
      destruct ps as [|P ps]; [by apply elem_of_nil in Hn|].
      by rewrite (min_by_len_None (P :: ps) Hn). }
  split; [done|]. by rewrite find_mssp_unfold, Hssp.
Qed.

Lemma first_shortest_le (ps : list (list V)) p q :
  first_shortest ps (Some p) → q ∈ ps → length p ≤ length q.
Proof.
  intros (pre & post & -> & Hpre & Hpost) Hq.
  rewrite Forall_forall in Hpre, Hpost.
  apply elem_of_app in Hq as [Hq|[->|Hq]%elem_of_cons]; [|lia|by apply Hpost].
  apply Hpre in Hq. lia.
Qed.

Lemma first_shortest_elem_of (ps : list (list V)) p :
  first_shortest ps (Some p) → p ∈ ps.
Proof.
  intros (pre & post & -> & _). apply elem_of_app. right. apply list_elem_of_here.
Qed.

Lemma elem_of_candidates g (ns : list V) p :
  p ∈ candidates shortest_path g ns ↔
  ∃ u v, (u, v) ∈ combinations2 ns ∧ discordant g u v ∧
         shortest_path g u v = Return (Some p).
Proof.
  unfold candidates. rewrite list_elem_of_omap. split.
  - intros ([u v] & Hin & Hc). exists u, v. split; [done|].
    unfold candidate in Hc. simpl in Hc. case_decide; [|done].
    split; [done|]. by destruct (shortest_path g u v) as [[p'|]| |]; simplify_eq.
  - intros (u & v & Hin & Hd & Hsp). exists (u, v). split; [done|].
    by rewrite candidate_discordant, Hsp.
Qed.

(** What [find_ssp] returns, on labeled vertices and a shortest-path function
    that answers with a path or with [NetworkXNoPath]. *)
Lemma find_ssp_first_shortest (G : gref) (L : lref) h :
  let g := graph_at h G in
  let ns := (list_at h L).*1 in
  (∀ v, v ∈ ns → labeled g v) →
  (∀ u v, u ∈ ns → v ∈ ns → discordant g u v →
          path_or_no_path (shortest_path g u v)) →
  ∃ r, find_ssp G L h = Return (r, h) ∧
       first_shortest (candidates shortest_path g ns) r.
Proof.
  intros g ns Hlab Hsp. rewrite find_ssp_unfold. fold g ns.
  rewrite path_loop_candidates; simpl.
  - fold (candidates shortest_path g ns).
    destruct (candidates shortest_path g ns) as [|b rest] eqn:Hc; simpl;
      [by exists None|].
    destruct (min_by_len_first_shortest (b :: rest)) as (p & Hmin & Hfirst);
      [done|].
    simpl in Hmin. rewrite Hmin. by exists (Some p).
  - intros [u v] [? ?]%combinations2_elem_of. auto.
  - intros [u v] [? ?]%combinations2_elem_of. auto.
Qed.

(** X5: [ssp[len(ssp) // 2]] on the empty list: when the shortest-path function
    answers a discordant pair with the empty path, no path is shorter, the
    winning path is empty and [find_mssp] raises [IndexError]. *)
Theorem find_mssp_empty_path_IndexError (G : gref) (L : lref) h u v :
  let g := graph_at h G in
  let ns := (list_at h L).*1 in
  (∀ w, w ∈ ns → labeled g w) →
  (∀ a b, a ∈ ns → b ∈ ns → discordant g a b →
          path_or_no_path (shortest_path g a b)) →
  (u, v) ∈ combinations2 ns → discordant g u v →
  shortest_path g u v = Return (Some []) →
  find_ssp G L h = Return (Some [], h) ∧ find_mssp G L h = Raise IndexError.
Proof.
  intros g ns Hlab Hsp Hin Hd Hempty.
  destruct (find_ssp_first_shortest G L h Hlab Hsp) as (r & Hssp & Hfirst).
  fold g ns in Hfirst.
  assert (Hc : [] ∈ candidates shortest_path g ns).
  { apply elem_of_candidates. by exists u, v. }
  assert (r = Some []) as ->.
  { destruct r as [p|]; simpl in Hfirst; [|by rewrite Hfirst in Hc; apply elem_of_nil in Hc].
    pose proof (first_shortest_le _ _ _ Hfirst Hc) as Hle. simpl in Hle.
    destruct p; [done|simpl in Hle; lia]. }
  split; [done|]. by rewrite find_mssp_unfold, Hssp.
Qed.

End MoreSearch.

(** * The working graph along a run *)

Section WellFormed.
Context `{Countable V}.
Implicit Types (g : Graph V) (u v x y : V) (e : edge V) (es : list (edge V)).

Lemma wf_graph_alt g :
  wf_graph g ↔
  dom (adj g) = dom (node g) ∧ ∀ u v, v ∈ neighbors g u → u ∈ neighbors g v.
Proof.
  split.
  - intros Hwf. split; [apply Hwf|]. intros u v. by apply wf_graph_sym.
  - intros [Hdom Hsym]. split; [done|]. intros u ns Hu v Hv.
    apply Hsym. unfold neighbors. by rewrite Hu.
Qed.

Lemma wf_graph_remove_edge g e : wf_graph g → wf_graph (remove_edge g e).
Proof.
  rewrite !wf_graph_alt. intros [Hdom Hsym]. split.
  - by rewrite dom_adj_remove_edge, node_remove_edge.
  - intros u v. rewrite !neighbors_remove_edge. naive_solver.
Qed.

Lemma wf_graph_remove_edges_from es g :
  wf_graph g → wf_graph (remove_edges_from g es).
Proof.
  unfold remove_edges_from. revert g.
  induction es as [|e es IH]; intros g Hwf; [done|].
  simpl. by apply IH, wf_graph_remove_edge.
Qed.

Lemma wf_graph_setitem_label g v b g' :
  setitem_label g v b = Return g' → wf_graph g → wf_graph g'.
Proof.
  intros (Hv & Hnode & Hadj)%setitem_label_Return. rewrite !wf_graph_alt.
  unfold neighbors. rewrite Hnode, Hadj. intros [Hdom Hsym]. split; [|done].
  rewrite Hdom. destruct Hv as [a Ha]. by rewrite dom_insert_lookup_L.
Qed.

(** An edge of the list is gone after [remove_edges_from], whichever way
    round it is written. *)
Lemma neighbors_remove_edges_from_has_edge es g u v :
  wf_graph g → has_edge es u v → v ∉ neighbors (remove_edges_from g es) u.
Proof.
  intros Hwf [Hin|Hin].
  - by apply neighbors_remove_edges_from_gone.
  - intros Hv. apply (wf_graph_sym _ u v) in Hv;
      [|by apply wf_graph_remove_edges_from].
    by apply (neighbors_remove_edges_from_gone es g u v) in Hv.
Qed.

(** The edges that the loop of [find_obvious_cuts] collects, on a graph with
    a symmetric [adj]. *)
Lemma cut_loop_complete g (ns : list V) cuts u v :
  wf_graph g →
  cut_loop g (edges_iter (subgraph g ns)) [] = Return cuts →
  u ∈ ns → v ∈ ns → v ∈ neighbors g u → discordant g u v →
  has_edge cuts u v.
Proof.
  intros Hwf [_ Hcs]%cut_loop_Return Hu Hv Hn Hd. unfold has_edge.
  rewrite !Hcs.
  destruct (edges_iter_complete (subgraph g ns) u v) as [He|He].
  - intros a b (? & ? & ?%(wf_graph_sym g))%neighbors_subgraph; [|done].
    by apply neighbors_subgraph.
  - by apply neighbors_subgraph.
  - left. right. by split.
  - right. right. split; [done|]. by apply discordant_sym.
Qed.

End WellFormed.

Section CutInvariant.
Context `{Countable V}.
Variable shortest_path : Graph V → V → V → outcome (option (list V)).
Variable oracle : V → bool.
Variable rng : nat → nat.
Implicit Types (g : Graph V) (u v : V) (h : heap V) (c : config V).

Local Abbreviation step := (step shortest_path oracle rng).
Local Abbreviation steps := (steps shortest_path oracle rng).
Local Abbreviation run_to := (run_to shortest_path oracle rng).
Local Abbreviation s2 := (s2 shortest_path oracle rng).
Local Abbreviation inv := (inv oracle).

Lemma start_Return Gin h0 c h :
  start Gin h0 = Return (c, h) →
  working c h = graph_at h0 Gin ∧ labels_of c h = [] ∧
  at_pc c = Outer ∧ asked c = [] ∧ draws c = 0 ∧
  cG c = length (graphs h0) ∧
  h = Heap (graphs h0 ++ [graph_at h0 Gin]) (lists h0 ++ [[]]).
Proof.
  unfold start, copy, mbind, M_bind, mret, M_ret, get_graph, new_graph, new_list.
  simpl. intros [= <- <-].
  unfold working, labels_of, graph_at, list_at. simpl.
  rewrite (lookup_app_r (graphs h0)), (lookup_app_r (lists h0)) by lia.
  by rewrite !Nat.sub_diag.
Qed.

Lemma step_cut_free h0 Gin c h c' h' :
  inv h0 Gin c h →
  wf_graph (working c h) ∧ cut_free (working c h) (labels_of c h) →
  step c h = Return (c', h') →
  wf_graph (working c' h') ∧ cut_free (working c' h') (labels_of c' h').
Proof.
  intros Hinv [Hwf Hfree] Hs.
  pose proof Hinv as (_ & _ & _ & _ & _ & Hv & _ & _ & _ & _ & _ & Hlab & _).
  destruct (at_pc c) as [|vert|] eqn:Hpc.
  - apply step_Outer in Hs as (-> & HG' & HL' & _); [|done].
    unfold working, labels_of in *. by rewrite HG', HL'.
  - eapply step_Inner in Hs
      as (gl & cuts & Hset & Hcuts & _ & _ & Hw & Hl & _); [|done..].
    pose proof (wf_graph_setitem_label _ _ _ _ Hset Hwf) as Hwfl.
    rewrite Hw, Hl. split; [by apply wf_graph_remove_edges_from|].
    intros u v Hu Hv' Hn Hd.
    assert (Hdl : discordant gl u v).
    { destruct Hd as (a & b & Ha & Hb & Hne).
      rewrite node_remove_edges_from in Ha, Hb. by exists a, b. }
    pose proof (neighbors_remove_edges_from_subseteq _ _ _ _ Hn) as Hnl.
    by apply (neighbors_remove_edges_from_has_edge cuts gl u v Hwfl
                (cut_loop_complete gl _ cuts u v Hwfl Hcuts Hu Hv' Hnl Hdl)).
  - by apply step_Exit in Hs as [-> ->].
Qed.

Lemma steps_cut_free h0 Gin k c h c' h' :
  inv h0 Gin c h →
  wf_graph (working c h) ∧ cut_free (working c h) (labels_of c h) →
  steps k c h = Return (c', h') →
  wf_graph (working c' h') ∧ cut_free (working c' h') (labels_of c' h').
Proof.
  revert c h. induction k as [|k IH]; intros c h Hinv Hfree; simpl.
  - unfold mret, M_ret. naive_solver.
  - intros (c1 & h1 & Hs & Hk)%M_bind_Return.
    eapply IH; [| |done]; eauto using step_inv, step_cut_free.
Qed.

Lemma run_to_cut_free h0 Gin k c h :
  Gin < length (graphs h0) → wf_graph (graph_at h0 Gin) →
  run_to k Gin h0 = Return (c, h) →
  wf_graph (working c h) ∧ cut_free (working c h) (labels_of c h).
Proof.
  intros HGin Hwf (c0 & h1 & Hstart & Hk)%M_bind_Return.
  eapply steps_cut_free; [by eapply start_inv| |done].
  apply start_Return in Hstart as (-> & -> & _). split; [done|].
  by intros u v ?%elem_of_nil.
Qed.

(** X7: the cuts are complete at every turn of the loop.  On an input graph that
    satisfies the invariants of networkx, in every configuration of a run the
    working graph satisfies them too, no edge of it joins two queried
    vertices on which the oracle differs, and every edge of the input graph
    whose two endpoints the oracle labels alike is an edge of it. *)
Theorem s2_cuts_complete (Gin : gref) h0 k c h :
  Gin < length (graphs h0) →
  wf_graph (graph_at h0 Gin) →
  run_to k Gin h0 = Return (c, h) →
  wf_graph (working c h) ∧
  (∀ u v, u ∈ asked c → v ∈ asked c → v ∈ neighbors (working c h) u →
          oracle u = oracle v ∧ ¬ discordant (working c h) u v) ∧
  (∀ u v, v ∈ neighbors (graph_at h0 Gin) u → oracle u = oracle v →
          v ∈ neighbors (working c h) u).
Proof.
  intros HGin Hwf Hrun.
  pose proof (run_to_inv _ _ _ _ _ _ _ _ HGin Hrun) as Hinv.
  destruct (run_to_cut_free _ _ _ _ _ HGin Hwf Hrun) as [Hwf' Hfree].
  pose proof Hinv as (_ & _ & _ & _ & _ & _ & _ & _ & _ & _ & Hcut & _ & _ & Hasked).
  split_and!; [done| |].
  - rewrite Hasked. intros u v Hu Hv Hn.
    pose proof (Hfree u v Hu Hv Hn) as Hd. split; [|done].
    destruct (decide (oracle u = oracle v)) as [|Hne]; [done|]. destruct Hd.
    exists (oracle u), (oracle v). eauto using inv_labeled_oracle.
  - intros u v Hn Heq.
    destruct (decide (v ∈ neighbors (working c h) u)) as [|Hout]; [done|].
    by destruct (Hcut _ _ Hn Hout) as (_ & _ & ?).
Qed.

Lemma inv_result_all_queried h0 Gin c h :
  inv h0 Gin c h →
  wf_graph (graph_at h0 Gin) →
  cut_free (working c h) (labels_of c h) →
  (∀ v, v ∈ dom (node (graph_at h0 Gin)) → v ∈ asked c) →
  (∀ v, v ∈ dom (node (graph_at h0 Gin)) →
        node (working c h) !! v = Some (Some (oracle v))) ∧
  (∀ u v, v ∈ neighbors (working c h) u ↔
          v ∈ neighbors (graph_at h0 Gin) u ∧ oracle u = oracle v).
Proof.
  intros Hinv Hwf Hfree Hall.
  pose proof Hinv as (_ & _ & _ & _ & _ & _ & _ & _ & _ & Hsub & Hcut & _ & _ & Hasked).
  rewrite Hasked in Hall. split.
  - intros v Hv. by apply (inv_labeled_oracle oracle h0 Gin), Hall.
  - intros u v. split.
    + intros Hn. pose proof (Hsub _ _ Hn) as Hn0. split; [done|].
      assert (Hu : u ∈ (labels_of c h).*1).
      { apply Hall. by apply (wf_graph_dom _ u v). }
      assert (Hv : v ∈ (labels_of c h).*1).
      { apply Hall. apply (wf_graph_dom _ v u); [done|]. by apply wf_graph_sym. }
      destruct (decide (oracle u = oracle v)) as [|Hne]; [done|].
      destruct (Hfree u v Hu Hv Hn).
      exists (oracle u), (oracle v). eauto using inv_labeled_oracle.
    + intros [Hn Heq].
      destruct (decide (v ∈ neighbors (working c h) u)) as [|Hout]; [done|].
      by destruct (Hcut _ _ Hn Hout) as (_ & _ & ?).
Qed.

(** X8: the result on a graph all of whose vertices were queried.  On an input
    graph that satisfies the invariants of networkx, in a configuration of a
    run in which every vertex was queried, every vertex of the working graph
    carries the oracle's answer, and the edges of the working graph are the
    edges of the input graph whose two endpoints the oracle labels alike. *)
Theorem s2_result_all_queried (Gin : gref) h0 k c h :
  Gin < length (graphs h0) →
  wf_graph (graph_at h0 Gin) →
  run_to k Gin h0 = Return (c, h) →
  (∀ v, v ∈ dom (node (graph_at h0 Gin)) → v ∈ asked c) →
  (∀ v, v ∈ dom (node (graph_at h0 Gin)) →
        node (working c h) !! v = Some (Some (oracle v))) ∧
  (∀ u v, v ∈ neighbors (working c h) u ↔
          v ∈ neighbors (graph_at h0 Gin) u ∧ oracle u = oracle v).
Proof.
  intros HGin Hwf Hrun Hall.
  apply (inv_result_all_queried h0 Gin); [by eapply run_to_inv|done| |done].
  by eapply run_to_cut_free.
Qed.

End CutInvariant.

(** * Walks, and the model of [networkx.shortest_path] *)

Section Walks.
Context `{Countable V}.
Implicit Types (g : Graph V) (u v x y : V) (p q : list V).

Lemma is_walk_lookup g p :
  is_walk g p ↔
  ∀ i a b, p !! i = Some a → p !! S i = Some b → b ∈ neighbors g a.
Proof.
  induction p as [|a [|b r] IH].
  - split; [|done]. by intros _ i a b ?.
  - split; [|done]. by intros _ [|i] a' b' ? ?.
  - change (is_walk g (a :: b :: r)) with (b ∈ neighbors g a ∧ is_walk g (b :: r)).
    rewrite IH. split.
    + intros [Hab Hr] [|i] a' b' Ha' Hb'; simpl in *; [by simplify_eq|].
      by apply (Hr i).
    + intros Hall. split; [by apply (Hall 0)|].
      intros i a' b' Ha' Hb'. by apply (Hall (S i)).
Qed.

Lemma is_walk_take g p k : is_walk g p → is_walk g (take k p).
Proof.
  rewrite !is_walk_lookup. intros Hall i a b.
  rewrite !lookup_take_Some. intros [Ha _] [Hb _]. by apply (Hall i).
Qed.

Lemma is_walk_drop g p k : is_walk g p → is_walk g (drop k p).
Proof.
  rewrite !is_walk_lookup. intros Hall i a b.
  rewrite !lookup_drop. intros Ha Hb. apply (Hall (k + i)); [done|].
  by rewrite <-Nat.add_succ_r.
Qed.

Lemma is_walk_reverse g p :
  (∀ a b, b ∈ neighbors g a → a ∈ neighbors g b) →
  is_walk g p → is_walk g (reverse p).
Proof.
  rewrite !is_walk_lookup. intros Hsym Hall i a b.
  rewrite !reverse_lookup_Some. intros [Ha Hi] [Hb HSi].
  apply Hsym. apply (Hall (length p - S (S i))); [done|].
  by replace (S (length p - S (S i))) with (length p - S i) by lia.
Qed.

Lemma path_from_to_length g u v p : path_from_to g u v p → 1 ≤ length p.
Proof. intros [Hh _]. destruct p; [done|simpl; lia]. Qed.

Lemma path_from_to_reverse g u v p :
  (∀ a b, b ∈ neighbors g a → a ∈ neighbors g b) →
  path_from_to g u v p → path_from_to g v u (reverse p).
Proof.
  intros Hsym (Hh & Hl & Hw). split_and!.
  - by rewrite head_reverse.
  - by rewrite last_reverse.
  - by apply is_walk_reverse.
Qed.

(** The part of a path up to its vertex [j], and the part from it. *)
Lemma path_from_to_take g u v p j m :
  path_from_to g u v p → p !! j = Some m →
  path_from_to g u m (take (S j) p) ∧ length (take (S j) p) = S j.
Proof.
  intros (Hh & Hl & Hw) Hm.
  pose proof (lookup_lt_Some _ _ _ Hm) as Hj.
  assert (Hlen : length (take (S j) p) = S j) by (rewrite length_take; lia).
  split; [|done]. split_and!.
  - rewrite head_lookup, lookup_take_lt by lia. by rewrite <-head_lookup.
  - rewrite last_lookup, Hlen. simpl. by rewrite lookup_take_lt by lia.
  - by apply is_walk_take.
Qed.

Lemma path_from_to_drop g u v p j m :
  path_from_to g u v p → p !! j = Some m →
  path_from_to g m v (drop j p) ∧ length (drop j p) = length p - j.
Proof.
  intros (Hh & Hl & Hw) Hm.
  pose proof (lookup_lt_Some _ _ _ Hm) as Hj.
  assert (Hlen : length (drop j p) = length p - j) by by rewrite length_drop.
  split; [|done]. split_and!.
  - by rewrite head_lookup, lookup_drop, Nat.add_0_r.
  - rewrite last_lookup, Hlen, lookup_drop.
    rewrite last_lookup in Hl. rewrite <-Hl. f_equal. lia.
  - by apply is_walk_drop.
Qed.

(** The vertices of a path of two or more vertices are vertices of the
    graph. *)
Lemma path_vertices g p x :
  wf_graph g → is_walk g p → 2 ≤ length p → x ∈ p → x ∈ dom (node g).
Proof.
  intros Hwf Hw Hlen [i Hi]%list_elem_of_lookup.
  rewrite is_walk_lookup in Hw.
  destruct i as [|i].
  - destruct (lookup_lt_is_Some_2 p 1) as [b Hb]; [lia|].
    apply (wf_graph_dom g x b); [done|]. by apply (Hw 0).
  - destruct (lookup_lt_is_Some_2 p i) as [a Ha].
    { apply lookup_lt_Some in Hi. lia. }
    apply (wf_graph_dom g x a); [done|]. apply wf_graph_sym; [done|].
    by apply (Hw i).
Qed.

(** A path can be cut down to one that visits no vertex twice. *)
Lemma path_simple g u v q :
  path_from_to g u v q →
  ∃ q', path_from_to g u v q' ∧ NoDup q' ∧ length q' ≤ length q.
Proof.
  revert u. induction q as [|a q IH]; intros u (Hh & Hl & Hw); [done|].
  simpl in Hh. injection Hh as ->.
  destruct q as [|b r].
  { exists [u]. split_and!; [done| |done]. apply NoDup_singleton. }
  destruct Hw as [Hub Hw].
  destruct (IH b) as (q' & (Hh' & Hl' & Hw') & Hnd & Hlen).
  { split_and!; [done| |done]. by rewrite last_cons_cons in Hl. }
  destruct (decide (u ∈ q')) as [Hin|Hout].
  - apply list_elem_of_lookup in Hin as [j Hj].
    destruct (path_from_to_drop g b v q' j u) as [Hp Hlen']; [done..|].
    exists (drop j q'). split_and!; [done| |simpl in *; lia].
    eapply sublist_NoDup; [exact Hnd|apply sublist_drop].
  - exists (u :: q'). split_and!.
    + split_and!; [done| |].
      * rewrite last_cons, Hl'. by rewrite last_cons_cons in Hl.
      * destruct q' as [|b' r']; [done|]. simpl in Hh'. injection Hh' as ->.
        by split.
    + by apply NoDup_cons.
    + simpl in *. lia.
Qed.

Lemma simple_path_length g p :
  wf_graph g → is_walk g p → NoDup p → length p ≤ S (order g).
Proof.
  intros Hwf Hw Hnd.
  destruct (decide (2 ≤ length p)) as [Hlen|]; [|lia].
  assert (Hsub : list_to_set (C := gset V) p ⊆ dom (node g)).
  { intros x Hx%elem_of_list_to_set. by apply (path_vertices g p). }
  apply subseteq_size in Hsub.
  rewrite size_list_to_set, size_dom in Hsub by done. unfold order. lia.
Qed.

(** *** [networkx.shortest_path] *)

Lemma shortest_None (ps : list (list V)) : shortest ps = None → ps = [].
Proof.
  destruct ps as [|p ps]; [done|]. unfold shortest. simpl.
  destruct (foldr _ _ _) as [q|]; [|done]. by destruct (_ <=? _).
Qed.

Lemma shortest_Some (ps : list (list V)) p :
  shortest ps = Some p → p ∈ ps ∧ ∀ q, q ∈ ps → length p ≤ length q.
Proof.
  revert p. induction ps as [|p0 ps IH]; intros p; simpl; [done|].
  destruct (shortest ps) as [q0|] eqn:Hq0.
  - destruct (IH q0 eq_refl) as [Hin Hmin].
    destruct (Nat.leb_spec (length p0) (length q0)) as [Hle|Hgt]; intros [= <-].
    + split; [by left|]. intros q [->|Hq]%elem_of_cons; [done|].
      specialize (Hmin q Hq). lia.
    + split; [by right|]. intros q [->|Hq]%elem_of_cons; [lia|by apply Hmin].
  - intros [= <-]. split; [by left|].
    intros q [->|Hq]%elem_of_cons; [done|].
    apply shortest_None in Hq0 as ->. by apply elem_of_nil in Hq.
Qed.

Lemma search_sound d g u v p :
  search d g u v = Some p → path_from_to g u v p.
Proof.
  revert u p. induction d as [|d IH]; intros u p; simpl.
  - case_decide as Huv; [|done]. intros [= <-]. by subst.
  - case_decide as Huv; [intros [= <-]; by subst|].
    destruct (shortest _) as [p'|] eqn:Hs; [|done]. intros [= <-].
    apply shortest_Some in Hs as [Hin _].
    apply list_elem_of_omap in Hin as (w & Hw%elem_of_elements & Hp').
    apply IH in Hp' as (Hh & Hl & Hwalk).
    destruct p' as [|w' r]; [done|]. simpl in Hh. injection Hh as ->.
    split_and!; [done| |by split]. by rewrite last_cons_cons.
Qed.

Lemma search_complete d g u v q :
  path_from_to g u v q → length q ≤ S d →
  ∃ p, search d g u v = Some p ∧ length p ≤ length q.
Proof.
  revert u q. induction d as [|d IH]; intros u q (Hh & Hl & Hw) Hlen.
  - destruct q as [|a [|b r]]; [done| |simpl in Hlen; lia].
    simpl in Hh, Hl. assert (u = v) as -> by congruence.
    exists [v]. simpl. by rewrite decide_True.
  - simpl. case_decide as Huv.
    { exists [u]. split; [done|]. destruct q; [done|simpl; lia]. }
    destruct q as [|a [|b r]]; [done|simpl in *; congruence|].
    simpl in Hh. injection Hh as ->. destruct Hw as [Hub Hw].
    destruct (IH b (b :: r)) as (p' & Hp' & Hlen').
    { split_and!; [done| |done]. by rewrite last_cons_cons in Hl. }
    { simpl in *. lia. }
    destruct (shortest _) as [p''|] eqn:Hs.
    + apply shortest_Some in Hs as [_ Hmin].
      exists (u :: p''). split; [done|].
      assert (length p'' ≤ length p'); [|simpl in *; lia].
      apply Hmin, list_elem_of_omap. exists b. by rewrite elem_of_elements.
    + apply shortest_None in Hs.
      assert (p' ∈ omap (λ w, search d g w v) (elements (neighbors g u))) as Hin.
      { apply list_elem_of_omap. exists b. by rewrite elem_of_elements. }
      rewrite Hs in Hin. by apply elem_of_nil in Hin.
Qed.

(** The model of [networkx.shortest_path] is a shortest-path function. *)
Lemma nx_shortest_path_correct g :
  wf_graph g → shortest_path_on nx_shortest_path g.
Proof.
  intros Hwf u v _ _. unfold nx_shortest_path.
  destruct (search (order g) g u v) as [p|] eqn:Hs.
  - split; [by eapply search_sound|]. intros q Hq.
    destruct (path_simple g u v q Hq) as (q' & Hq' & Hnd & Hle).
    destruct (search_complete (order g) g u v q' Hq') as (p' & Hp' & Hle').
    { apply simple_path_length; [done|apply Hq'|done]. }
    simplify_eq. lia.
  - intros q Hq.
    destruct (path_simple g u v q Hq) as (q' & Hq' & Hnd & Hle).
    destruct (search_complete (order g) g u v q' Hq') as (p' & Hp' & Hle').
    { apply simple_path_length; [done|apply Hq'|done]. }
    congruence.
Qed.

End Walks.

(** * The midpoint of the winning path *)

Section Midpoint.
Context `{Countable V}.
Variable shortest_path : Graph V → V → V → outcome (option (list V)).
Implicit Types (g : Graph V) (u v x y : V) (h : heap V) (p q : list V).
Implicit Types (l : labeled_set V).

Local Abbreviation find_ssp := (find_ssp shortest_path).
Local Abbreviation find_mssp := (find_mssp shortest_path).

Lemma combinations2_pair {A} (xs : list A) (a b : A) :
  a ∈ xs → b ∈ xs → a ≠ b →
  (a, b) ∈ combinations2 xs ∨ (b, a) ∈ combinations2 xs.
Proof.
  intros [i Hi]%list_elem_of_lookup [j Hj]%list_elem_of_lookup Hne.
  rewrite !elem_of_combinations2.
  destruct (decide (i < j)); [left; by exists i, j|].
  right. exists j, i. split_and!; [|done..].
  assert (i ≠ j) by congruence. lia.
Qed.

Lemma shortest_path_on_path_or_no_path g u v :
  shortest_path_on shortest_path g → labeled g u → labeled g v →
  path_or_no_path (shortest_path g u v).
Proof.
  intros Hsp Hu%labeled_dom Hv%labeled_dom. specialize (Hsp u v Hu Hv).
  by destruct (shortest_path g u v) as [[p|]|[]|].
Qed.

(** No two discordant listed vertices are joined by a path shorter than the
    winning path. *)
Lemma shorter_path_absurd g (ns : list V) p x y q :
  wf_graph g → (∀ v, v ∈ ns → labeled g v) → shortest_path_on shortest_path g →
  first_shortest (candidates shortest_path g ns) (Some p) →
  x ∈ ns → y ∈ ns → discordant g x y →
  path_from_to g x y q → length q < length p → False.
Proof.
  intros Hwf Hlab Hsp Hfirst Hx Hy Hd Hq Hlt.
  assert (Hne : x ≠ y).
  { intros ->. destruct Hd as (a & b & Ha & Hb & Hab). congruence. }
  assert (Hcase : ∀ a b q', (a, b) ∈ combinations2 ns → discordant g a b →
            path_from_to g a b q' → length q' < length p → False).
  { intros a b q' Hin Hd' Hq' Hlt'.
    pose proof (combinations2_elem_of _ _ _ Hin) as [Ha Hb].
    pose proof (Hsp a b (labeled_dom _ _ (Hlab a Ha)) (labeled_dom _ _ (Hlab b Hb)))
      as Hab.
    destruct (shortest_path g a b) as [[p1|]|[]|] eqn:E; try done.
    - destruct Hab as [_ Hmin]. specialize (Hmin q' Hq').
      assert (Hc : p1 ∈ candidates shortest_path g ns).
      { apply elem_of_candidates. by exists a, b. }
      pose proof (first_shortest_le _ _ _ Hfirst Hc). lia.
    - by apply (Hab q'). }
  destruct (combinations2_pair ns x y) as [Hin|Hin]; [done..| |].
  - by apply (Hcase x y q).
  - apply (Hcase y x (reverse q)); [done|by apply discordant_sym| |].
    + apply path_from_to_reverse; [|done]. intros a b. by apply wf_graph_sym.
    + by rewrite length_reverse.
Qed.

(** The midpoint of the winning path is a vertex that is not listed. *)
Lemma midpoint_fresh g l p :
  wf_graph g → (∀ v, v ∈ l.*1 → labeled g v) → cut_free g l →
  shortest_path_on shortest_path g →
  first_shortest (candidates shortest_path g l.*1) (Some p) →
  ∃ m, p !! (length p `div` 2) = Some m ∧ m ∈ dom (node g) ∧ m ∉ l.*1.
Proof.
  intros Hwf Hlab Hfree Hsp Hfirst.
  pose proof (first_shortest_elem_of _ _ Hfirst) as Hc.
  apply elem_of_candidates in Hc as (u & v & Hin & Hd & Huv).
  apply combinations2_elem_of in Hin as [Hu Hv].
  pose proof (Hsp u v (labeled_dom _ _ (Hlab u Hu)) (labeled_dom _ _ (Hlab v Hv)))
    as Hp.
  rewrite Huv in Hp. destruct Hp as [Hp _].
  pose proof Hd as (a & b & Ha & Hb & Hab).
  assert (Hk : 2 ≤ length p).
  { destruct Hp as (Hh & Hl & _).
    destruct p as [|x [|y r]]; [done| |simpl; lia].
    simpl in Hh, Hl. congruence. }
  pose proof (Nat.div_mod_eq (length p) 2) as Hdiv.
  pose proof (Nat.mod_upper_bound (length p) 2) as Hmod.
  set (j := length p `div` 2) in *.
  destruct (lookup_lt_is_Some_2 p j) as [m Hm]; [lia|].
  exists m. split_and!; [done| |].
  - apply (path_vertices g p); [done|apply Hp|done|]. by eapply list_elem_of_lookup_2.
  - intros Hmin. destruct (Hlab m Hmin) as [c Hc].
    destruct (decide (c = a)) as [->|Hca].
    + destruct (path_from_to_drop g u v p j m Hp Hm) as [Hq Hlen].
      apply (shorter_path_absurd g l.*1 p m v (drop j p)); try done; [|lia].
      by exists a, b.
    + destruct (path_from_to_take g u v p j m Hp Hm) as [Hq Hlen].
      destruct (decide (S j < length p)) as [Hlt|Hge].
      * apply (shorter_path_absurd g l.*1 p u m (take (S j) p)); try done; [|lia].
        exists a, c. split_and!; [done..|congruence].
      * assert (Hj : j = 1) by lia.
        assert (Hlen2 : length p = 2) by lia.
        destruct Hp as (Hh & Hl & Hw).
        destruct p as [|x [|y [|z r]]]; try (simpl in Hlen2; lia).
        assert (Hxu : x = u) by (simpl in Hh; congruence).
        assert (Hym : y = m) by (rewrite Hj in Hm; simpl in Hm; congruence).
        destruct Hw as [Hn _]. rewrite Hxu, Hym in Hn.
        apply (Hfree u m Hu Hmin Hn).
        exists a, c. split_and!; [done..|congruence].
Qed.

(** X6: the vertex that [find_mssp] proposes was not queried.  On a graph that
    satisfies the invariants of networkx, whose listed vertices carry a label
    attribute and in which no edge joins two listed vertices of different
    labels, and with a shortest-path function that returns shortest paths:
    [find_mssp] returns, either [None] or a vertex of the graph that is not
    in the labeled set. *)
Theorem find_mssp_fresh (G : gref) (L : lref) h :
  let g := graph_at h G in
  let l := list_at h L in
  wf_graph g → (∀ v, v ∈ l.*1 → labeled g v) → cut_free g l →
  shortest_path_on shortest_path g →
  find_mssp G L h = Return (None, h) ∨
  ∃ m, find_mssp G L h = Return (Some m, h) ∧ m ∈ dom (node g) ∧ m ∉ l.*1.
Proof.
  intros g l Hwf Hlab Hfree Hsp.
  destruct (find_ssp_first_shortest shortest_path G L h) as (r & Hssp & Hfirst).
  { done. }
  { intros u v Hu Hv _. apply shortest_path_on_path_or_no_path; auto. }
  rewrite find_mssp_unfold, Hssp. destruct r as [p|]; [|by left].
  destruct (midpoint_fresh g l p) as (m & Hm & Hdom & Hout); [done..|].
  right. exists m. by rewrite Hm.
Qed.

End Midpoint.

(** * Runs that query no vertex twice, forwards *)

Section Forward.
Context `{Countable V}.
Variable shortest_path : Graph V → V → V → outcome (option (list V)).
Variable oracle : V → bool.
Variable rng : nat → nat.
Implicit Types (g : Graph V) (u v : V) (h : heap V) (c : config V).

Local Abbreviation step := (step shortest_path oracle rng).
Local Abbreviation steps := (steps shortest_path oracle rng).
Local Abbreviation run_to := (run_to shortest_path oracle rng).
Local Abbreviation s2 := (s2 shortest_path oracle rng).
Local Abbreviation inv := (inv oracle).

(** One pass of the inner loop, forwards. *)
Lemma query_unfold G L vert h :
  G < length (graphs h) → L < length (lists h) →
  query shortest_path oracle G L vert h =
  let l' := list_at h L ++ [(vert, oracle vert)] in
  match setitem_label (graph_at h G) vert (oracle vert) with
  | Return gl =>
      match cut_loop gl (edges_iter (subgraph gl l'.*1)) [] with
      | Return cuts =>
          find_mssp shortest_path G L
            (Heap (<[G := remove_edges_from gl cuts]> (graphs h)
                     ++ [subgraph gl l'.*1])
                  (<[L := l']> (lists h)))
      | Raise e => Raise e
      | OutOfFuel => OutOfFuel
      end
  | Raise e => Raise e
  | OutOfFuel => OutOfFuel
  end.
Proof.
  destruct h as [gs ls]. simpl. intros HG HL.
  unfold query, mbind, M_bind, append, get_graph, put_graph, lift.
  cbn -[subgraph edges_iter cut_loop remove_edges_from graph_at list_at
        find_obvious_cuts find_mssp setitem_label].
  change (graph_at (Heap gs (<[L:=list_at (Heap gs ls) L ++ [(vert, oracle vert)]]> ls)) G)
    with (graph_at (Heap gs ls) G).
  destruct (setitem_label _ _ _) as [gl| |]; [|done..].
  rewrite find_obvious_cuts_unfold.
  cbn -[subgraph edges_iter cut_loop remove_edges_from graph_at list_at find_mssp].
  rewrite (graph_at_insert gs), (list_at_insert ls) by done.
  destruct (cut_loop _ _ _) as [cuts| |]; [|done..].
  cbn -[subgraph edges_iter cut_loop remove_edges_from graph_at list_at find_mssp].
  rewrite (graph_at_insert_app gs) by done.
  by rewrite insert_app_l, list_insert_insert_eq by (rewrite length_insert; lia).
Qed.

Lemma step_Inner_unfold c h vert :
  at_pc c = Inner vert →
  step c h =
  match query shortest_path oracle (cG c) (cL c) vert h with
  | Return (next, h') =>
      Return (Config (match next with Some v => Inner v | None => Outer end)
                (cG c) (cL c) (cn c) (draws c) (asked c ++ [vert]), h')
  | Raise e => Raise e
  | OutOfFuel => OutOfFuel
  end.
Proof.
  intros Hpc. unfold step. rewrite Hpc. unfold mbind, M_bind.
  by destruct (query _ _ _ _ _ _) as [[next h']| |].
Qed.

Lemma step_Outer_unfold c h :
  at_pc c = Outer →
  step c h =
  if decide (length (labels_of c h) = cn c) then
    Return (Config Exit (cG c) (cL c) (cn c) (draws c) (asked c), h)
  else
    match choice (rng (draws c)) (nodes (working c h)) with
    | Return vert =>
        Return (Config (Inner vert) (cG c) (cL c) (cn c) (S (draws c)) (asked c), h)
    | Raise e => Raise e
    | OutOfFuel => OutOfFuel
    end.
Proof.
  intros Hpc. unfold step. rewrite Hpc.
  unfold mbind, M_bind, get_list, get_graph, labels_of, working.
  case_decide; [done|]. unfold lift. by destruct (choice _ _).
Qed.

Lemma steps_snoc k c h :
  steps (S k) c h =
  match steps k c h with
  | Return (c', h') => step c' h'
  | Raise e => Raise e
  | OutOfFuel => OutOfFuel
  end.
Proof.
  revert c h. induction k as [|k IH]; intros c h.
  - simpl. unfold mbind, M_bind, mret, M_ret.
    by destruct (step c h) as [[c1 h1]| |].
  - change (steps (S (S k)) c h) with ((step c ≫= steps (S k)) h).
    change (steps (S k) c h) with ((step c ≫= steps k) h).
    unfold mbind, M_bind. destruct (step c h) as [[c1 h1]| |]; [|done..].
    apply IH.
Qed.

Lemma run_to_S k Gin h0 :
  run_to (S k) Gin h0 =
  match run_to k Gin h0 with
  | Return (c, h) => step c h
  | Raise e => Raise e
  | OutOfFuel => OutOfFuel
  end.
Proof.
  rewrite !run_to_unfold. destruct (start Gin h0) as [[c0 h1]| |]; [|done..].
  apply steps_snoc.
Qed.

Lemma choice_Return {A} (r : nat) (seq : list A) :
  seq ≠ [] → ∃ x, choice r seq = Return x ∧ x ∈ seq.
Proof.
  intros Hne. unfold choice.
  destruct (lookup_lt_is_Some_2 seq (r `mod` length seq)) as [x Hx].
  { apply Nat.mod_upper_bound. by destruct seq. }
  exists x. rewrite Hx. split; [done|]. by eapply list_elem_of_lookup_2.
Qed.

Lemma elem_of_nodes g v : v ∈ nodes g ↔ v ∈ dom (node g).
Proof.
  unfold nodes. rewrite list_elem_of_fmap, elem_of_dom. split.
  - intros ([v' a] & -> & Hin%elem_of_map_to_list). by exists a.
  - intros [a Ha]. exists (v, a). by rewrite elem_of_map_to_list.
Qed.

(** After the cuts found on [gl] are removed, no edge joins two listed
    vertices of different labels. *)
Lemma cut_free_remove_cuts gl (l : labeled_set V) cuts :
  wf_graph gl →
  cut_loop gl (edges_iter (subgraph gl l.*1)) [] = Return cuts →
  cut_free (remove_edges_from gl cuts) l.
Proof.
  intros Hwf Hcuts u v Hu Hv Hn Hd.
  assert (Hdl : discordant gl u v).
  { destruct Hd as (a & b & Ha & Hb & Hne).
    rewrite node_remove_edges_from in Ha, Hb. by exists a, b. }
  pose proof (neighbors_remove_edges_from_subseteq _ _ _ _ Hn) as Hnl.
  by apply (neighbors_remove_edges_from_has_edge cuts gl u v Hwf
              (cut_loop_complete gl _ cuts u v Hwf Hcuts Hu Hv Hnl Hdl)).
Qed.

(** With a shortest-path function that returns shortest paths, a transition
    from a configuration whose next query is of a vertex not yet queried does
    not raise and leads to such a configuration, provided the draw of a
    reseed is of a vertex not yet queried. *)
Lemma step_fresh h0 Gin c h :
  inv h0 Gin c h →
  wf_graph (working c h) →
  (∀ g, wf_graph g → shortest_path_on shortest_path g) →
  fresh_target c h →
  (at_pc c = Outer → length (labels_of c h) ≠ cn c →
   ∀ v, choice (rng (draws c)) (nodes (working c h)) = Return v → v ∉ asked c) →
  ∃ c' h', step c h = Return (c', h') ∧ fresh_target c' h'.
Proof.
  intros Hinv Hwf Hsp [Hnd Htarget] Hdraw.
  pose proof Hinv as (_ & _ & _ & _ & _ & Hv & Hn & Hnode & _ & _ & _ & Hlab & _
                      & Hasked).
  destruct (at_pc c) as [|vert|] eqn:Hpc.
  - rewrite step_Outer_unfold by done. case_decide as Hlen.
    { eexists _, _. split; [done|]. split; [done|]. by intros vert [=]. }
    destruct (choice_Return (rng (draws c)) (nodes (working c h))) as (x & Hx & Hin).
    { intros Hnil. apply Hlen. rewrite Hn.
      assert (Hdom : dom (node (working c h)) = ∅).
      { apply set_eq. intros v. rewrite <-elem_of_nodes, Hnil. set_solver. }
      unfold order. rewrite <-size_dom, <-Hnode, Hdom, size_empty.
      destruct (labels_of c h) as [|[v b] l]; [done|].
      destruct (Hlab v b) as [_ Hvb]; [by left|].
      assert (v ∈ dom (node (working c h))) by by apply elem_of_dom.
      set_solver. }
    rewrite Hx. eexists _, _. split; [done|]. split; [done|].
    simpl. intros vert [= <-]. split; [by apply Hdraw|].
    by apply elem_of_nodes.
  - destruct (Htarget vert eq_refl) as [Hout Hin].
    destruct Hv as [HvG HvL].
    rewrite (step_Inner_unfold c h vert Hpc), query_unfold by done.
    fold (working c h) (labels_of c h).
    set (l' := labels_of c h ++ [(vert, oracle vert)]).
    destruct (setitem_label (working c h) vert (oracle vert)) as [gl| |] eqn:Hset;
      [|unfold setitem_label in Hset; apply elem_of_dom in Hin as [a Ha];
        rewrite Ha in Hset; discriminate Hset..].
    cbn zeta.
    pose proof (wf_graph_setitem_label _ _ _ _ Hset Hwf) as Hwfl.
    apply setitem_label_Return in Hset as (_ & Hnl & Hal).
    assert (Hfst : ∀ v, v ∈ l'.*1 → node gl !! v = Some (Some (oracle v))).
    { intros v. unfold l'. rewrite fmap_app, elem_of_app. simpl.
      rewrite list_elem_of_singleton, Hnl. intros [Hvl| ->].
      - apply list_elem_of_fmap in Hvl as ([v' b] & -> & Hvb).
        destruct (Hlab _ _ Hvb) as [-> Hnode']. simpl.
        rewrite lookup_insert. by case_decide; simplify_eq.
      - by rewrite lookup_insert_eq. }
    destruct (cut_loop_total gl (edges_iter (subgraph gl l'.*1)) []) as [cuts Hcuts].
    { intros [a b] (Ha & Hb & _)%elem_of_edges_iter%neighbors_subgraph.
      split; eexists; by apply Hfst. }
    rewrite Hcuts.
    set (h1 := Heap _ _).
    assert (Hg1 : graph_at h1 (cG c) = remove_edges_from gl cuts).
    { unfold h1. by rewrite (graph_at_insert_app (graphs h)). }
    assert (Hl1 : list_at h1 (cL c) = l').
    { unfold h1. by rewrite (list_at_insert (lists h)). }
    assert (Hwf1 : wf_graph (remove_edges_from gl cuts))
      by by apply wf_graph_remove_edges_from.
    assert (Hlab1 : ∀ v, v ∈ l'.*1 → labeled (remove_edges_from gl cuts) v).
    { intros v Hvl. exists (oracle v). rewrite node_remove_edges_from.
      by apply Hfst. }
    assert (Hm : find_mssp shortest_path (cG c) (cL c) h1 = Return (None, h1) ∨
              ∃ m, find_mssp shortest_path (cG c) (cL c) h1 = Return (Some m, h1) ∧
                   m ∈ dom (node (remove_edges_from gl cuts)) ∧ m ∉ l'.*1).
    { destruct (find_ssp_first_shortest shortest_path (cG c) (cL c) h1)
        as (r & Hssp & Hfirst).
      { cbn zeta. by rewrite Hg1, Hl1. }
      { cbn zeta. rewrite Hg1, Hl1. intros u v Hu Hv' _.
        apply shortest_path_on_path_or_no_path; [by apply Hsp|by apply Hlab1..]. }
      rewrite find_mssp_unfold, Hssp. destruct r as [p|]; [|by left].
      rewrite Hg1, Hl1 in Hfirst.
      destruct (midpoint_fresh shortest_path (remove_edges_from gl cuts) l' p)
        as (m & Hm & Hmdom & Hmout);
        [done|done|by apply cut_free_remove_cuts|by apply Hsp|done|].
      right. exists m. by rewrite Hm. }
    destruct Hm as [Hm|(m & Hm & Hmdom & Hmout)].
    + rewrite Hm. eexists _, _. split; [done|]. split; simpl.
      * apply NoDup_app. split_and!; [done| |apply NoDup_singleton].
        intros x Hx ->%list_elem_of_singleton. done.
      * by intros vert' [=].
    + rewrite Hm. eexists _, _. split; [done|]. split; simpl.
      * apply NoDup_app. split_and!; [done| |apply NoDup_singleton].
        intros x Hx ->%list_elem_of_singleton. done.
      * intros vert' [= <-]. split.
        -- rewrite Hasked. unfold l' in Hmout. by rewrite fmap_app in Hmout.
        -- unfold working. simpl. by rewrite Hg1.
  - rewrite step_at_Exit by done. eexists _, _. split; [done|]. split; [done|].
    intros vert Hvert. congruence.
Qed.

(** The runs on an input graph that satisfies the invariants of networkx,
    with a shortest-path function that returns shortest paths and draws that
    pick vertices not yet queried: no transition raises and no vertex is
    queried twice. *)
Lemma run_fresh h0 Gin :
  Gin < length (graphs h0) →
  wf_graph (graph_at h0 Gin) →
  (∀ g, wf_graph g → shortest_path_on shortest_path g) →
  (∀ k c h v, run_to k Gin h0 = Return (c, h) → at_pc c = Outer →
     length (labels_of c h) ≠ cn c →
     choice (rng (draws c)) (nodes (working c h)) = Return v → v ∉ asked c) →
  ∀ k, ∃ c h, run_to k Gin h0 = Return (c, h) ∧ fresh_target c h.
Proof.
  intros HGin Hwf Hsp Hdraw k. induction k as [|k (c & h & Hrun & Hfresh)].
  - rewrite run_to_unfold.
    destruct (start Gin h0) as [[c0 h1]| |] eqn:Hstart; [|done..].
    exists c0, h1. split; [done|].
    apply start_Return in Hstart as (_ & _ & Hpc & Hasked & _).
    split; [rewrite Hasked; apply NoDup_nil_2|]. intros vert. congruence.
  - rewrite run_to_S, Hrun.
    apply (step_fresh h0 Gin); [by eapply run_to_inv| |done..|].
    + by eapply run_to_cut_free.
    + intros Hpc Hlen v. by apply (Hdraw k).
Qed.

End Forward.

(** * What a call of [s2] computes *)

Section MoreRuns.
Context `{Countable V}.
Variable shortest_path : Graph V → V → V → outcome (option (list V)).
Variable oracle : V → bool.
Variable rng : nat → nat.
Implicit Types (g : Graph V) (u v : V) (h : heap V) (c : config V).

Local Abbreviation step := (step shortest_path oracle rng).
Local Abbreviation steps := (steps shortest_path oracle rng).
Local Abbreviation run_to := (run_to shortest_path oracle rng).
Local Abbreviation s2 := (s2 shortest_path oracle rng).
Local Abbreviation inv := (inv oracle).

(** [L] is the log of the queries. *)
Lemma inv_labels_log h0 Gin c h :
  inv h0 Gin c h → labels_of c h = (λ v, (v, oracle v)) <$> asked c.
Proof.
  intros (_ & _ & _ & _ & _ & _ & _ & _ & _ & _ & _ & Hlab & _ & ->).
  induction (labels_of c h) as [|[v b] l IH]; [done|]. simpl.
  destruct (Hlab v b) as [-> _]; [by left|]. f_equal.
  apply IH. intros v' b' Hin. apply Hlab. by right.
Qed.

(** X9: the number of oracle calls.  A call of [s2] that returns has called the
    oracle as many times as the graph has vertices, not more and not fewer,
    whichever vertices the calls were on; [L] holds the vertices called on, in
    order, each with the oracle's answer. *)
Theorem s2_queries_at_return fuel (Gin Gret : gref) h0 h' :
  Gin < length (graphs h0) →
  s2 fuel Gin h0 = Return (Gret, h') →
  ∃ k c, run_to k Gin h0 = Return (c, h') ∧ at_pc c = Exit ∧ cG c = Gret ∧
         length (asked c) = order (graph_at h0 Gin) ∧
         labels_of c h' = (λ v, (v, oracle v)) <$> asked c.
Proof.
  intros HGin (k & c & Hrun & Hpc & HG)%s2_Return.
  exists k, c. split_and!; [done..| |].
  - by eapply run_to_exit_count.
  - eapply inv_labels_log. by eapply run_to_inv.
Qed.

(** X10: the graph without vertices.  [len(L) == n] holds at once, and [s2] returns
    the copy without a call of the oracle and without a draw
    ([random.choice] would raise [IndexError] on the empty list of
    vertices). *)
Theorem s2_no_vertex (Gin : gref) h0 :
  order (graph_at h0 Gin) = 0 →
  ∃ c h,
    run_to 1 Gin h0 = Return (c, h) ∧
    at_pc c = Exit ∧ asked c = [] ∧ draws c = 0 ∧
    working c h = graph_at h0 Gin ∧
    ∀ fuel, s2 (S fuel) Gin h0 = Return (cG c, h).
Proof.
  intros Hn. destruct (start Gin h0) as [[c0 h1]| |] eqn:Hstart;
    [|unfold start, copy, mbind, M_bind, mret, M_ret, get_graph,
        new_graph, new_list in Hstart; simpl in Hstart; discriminate Hstart..].
  pose proof (start_Return _ _ _ _ Hstart) as (Hw & Hl & Hpc & Ha & Hd & HG & Hh1).
  assert (Hcn : cn c0 = 0).
  { unfold start, copy, mbind, M_bind, mret, M_ret, get_graph, new_graph,
      new_list in Hstart. simpl in Hstart. injection Hstart as <- <-. simpl.
    unfold graph_at. simpl.
    rewrite (lookup_app_r (graphs h0)), Nat.sub_diag by lia. exact Hn. }
  assert (Hrun : run_to 1 Gin h0
                 = Return (Config Exit (cG c0) (cL c0) (cn c0) (draws c0) (asked c0), h1)).
  { rewrite run_to_S, run_to_unfold, Hstart. simpl.
    rewrite step_Outer_unfold by done. rewrite Hl, Hcn. by rewrite decide_True. }
  eexists _, _. split; [exact Hrun|]. split_and!; try done.
  intros fuel. apply (s2_returns _ _ _ 1 _ _ _ _ _ Hrun); [done|lia].
Qed.

(** X11: runs that query no vertex twice label every vertex.  When no transition
    of the run raises and no vertex is queried twice, whatever the
    shortest-path function and the draws are, the run is at the exit after
    [2 n + 2] transitions, [s2] returns, every vertex was queried once, and
    every vertex of the returned graph carries the oracle's answer. *)
Theorem s2_fresh_run_labels_all (Gin : gref) h0 :
  Gin < length (graphs h0) →
  (∀ k, ∃ c h, run_to k Gin h0 = Return (c, h) ∧ NoDup (asked c)) →
  ∃ c h,
    run_to (2 * order (graph_at h0 Gin) + 2) Gin h0 = Return (c, h) ∧
    at_pc c = Exit ∧
    asked c ≡ₚ nodes (graph_at h0 Gin) ∧
    (∀ fuel, 2 * order (graph_at h0 Gin) + 2 ≤ fuel →
             s2 fuel Gin h0 = Return (cG c, h)) ∧
    (∀ v, v ∈ dom (node (graph_at h0 Gin)) →
          node (graph_at h (cG c)) !! v = Some (Some (oracle v))).
Proof.
  intros HGin Hfresh.
  destruct (s2_terminates_when_fresh shortest_path oracle rng h0 Gin HGin Hfresh)
    as (c & h & Hrun & Hpc & Hperm & Hfuel).
  exists c, h. split_and!; [done..|].
  intros v Hv%elem_of_nodes. rewrite <-Hperm in Hv.
  pose proof (run_to_inv _ _ _ _ _ _ _ _ HGin Hrun) as Hinv.
  apply (inv_labeled_oracle oracle h0 Gin c h v Hinv).
  by destruct Hinv as (_ & _ & _ & _ & _ & _ & _ & _ & _ & _ & _ & _ & _ & <-).
Qed.

(** X13: [s2] is correct when the draws are of vertices not yet queried.  On an
    input graph that satisfies the invariants of networkx, with a
    shortest-path function that returns shortest paths, and when every draw
    of [random.choice] is of a vertex that was not queried: no transition
    raises, [s2] returns within [2 n + 2] transitions, every vertex was
    queried once, every vertex of the returned graph carries the oracle's
    answer, and the edges of the returned graph are the edges of the input
    graph whose two endpoints the oracle labels alike. *)
Theorem s2_correct (Gin : gref) h0 :
  Gin < length (graphs h0) →
  wf_graph (graph_at h0 Gin) →
  (∀ g, wf_graph g → shortest_path_on shortest_path g) →
  (∀ k c h v, run_to k Gin h0 = Return (c, h) → at_pc c = Outer →
     length (labels_of c h) ≠ cn c →
     choice (rng (draws c)) (nodes (working c h)) = Return v → v ∉ asked c) →
  ∃ c h,
    run_to (2 * order (graph_at h0 Gin) + 2) Gin h0 = Return (c, h) ∧
    at_pc c = Exit ∧
    asked c ≡ₚ nodes (graph_at h0 Gin) ∧
    (∀ fuel, 2 * order (graph_at h0 Gin) + 2 ≤ fuel →
             s2 fuel Gin h0 = Return (cG c, h)) ∧
    (∀ v, v ∈ dom (node (graph_at h0 Gin)) →
          node (graph_at h (cG c)) !! v = Some (Some (oracle v))) ∧
    (∀ u v, v ∈ neighbors (graph_at h (cG c)) u ↔
            v ∈ neighbors (graph_at h0 Gin) u ∧ oracle u = oracle v).
Proof.
  intros HGin Hwf Hsp Hdraw.
  pose proof (run_fresh shortest_path oracle rng h0 Gin HGin Hwf Hsp Hdraw) as Hfresh.
  destruct (s2_terminates_when_fresh shortest_path oracle rng h0 Gin HGin)
    as (c & h & Hrun & Hpc & Hperm & Hfuel).
  { intros k. destruct (Hfresh k) as (c & h & Hrun & Hnd & _). by exists c, h. }
  exists c, h. split_and!; [done..| |];
    apply (inv_result_all_queried oracle h0 Gin c h);
    try (by eapply run_to_inv); try done;
    try (by eapply run_to_cut_free);
    intros v Hv%elem_of_nodes; by rewrite Hperm.
Qed.

(** *** What a run never undoes *)

Lemma step_monotone c h c' h' :
  valid c h → step c h = Return (c', h') →
  labels_of c h `prefix_of` labels_of c' h' ∧
  asked c `prefix_of` asked c' ∧
  (∀ u v, v ∈ neighbors (working c' h') u → v ∈ neighbors (working c h) u).
Proof.
  intros Hv Hs. destruct (at_pc c) as [|vert|] eqn:Hpc.
  - apply step_Outer in Hs as (-> & HG & HL & _ & Ha & _); [|done].
    unfold labels_of, working. by rewrite HG, HL, Ha.
  - eapply step_Inner in Hs
      as (gl & cuts & Hset & _ & _ & _ & Hw & Hl & _ & _ & _ & _ & Ha); [|done..].
    apply setitem_label_Return in Hset as (_ & _ & Hal).
    rewrite Hw, Hl, Ha. split_and!; [by apply prefix_app_r..|].
    intros u v Hn%neighbors_remove_edges_from_subseteq.
    unfold neighbors in *. by rewrite <-Hal.
  - by apply step_Exit in Hs as [-> ->].
Qed.

Lemma steps_monotone j c h c' h' :
  valid c h → steps j c h = Return (c', h') →
  labels_of c h `prefix_of` labels_of c' h' ∧
  asked c `prefix_of` asked c' ∧
  (∀ u v, v ∈ neighbors (working c' h') u → v ∈ neighbors (working c h) u).
Proof.
  revert c h. induction j as [|j IH]; intros c h Hv; simpl.
  - by intros [= <- <-].
  - intros (c1 & h1 & Hs & Hj)%M_bind_Return.
    destruct (step_monotone _ _ _ _ Hv Hs) as (Hl1 & Ha1 & Hn1).
    destruct (IH c1 h1) as (Hl2 & Ha2 & Hn2); [by eapply step_valid|done|].
    split_and!; [by etrans..|]. auto.
Qed.

Lemma steps_add k j c h :
  steps (k + j) c h =
  match steps k c h with
  | Return (c', h') => steps j c' h'
  | Raise e => Raise e
  | OutOfFuel => OutOfFuel
  end.
Proof.
  revert c h. induction k as [|k IH]; intros c h; [done|].
  change (steps (S k + j) c h) with ((step c ≫= steps (k + j)) h).
  change (steps (S k) c h) with ((step c ≫= steps k) h).
  unfold mbind, M_bind. destruct (step c h) as [[c1 h1]| |]; [|done..].
  apply IH.
Qed.

(** X12: nothing is undone in a run.  From a configuration of a run to a later
    one, [L] is extended at its end, the edges of the working graph are edges
    it had before, and every pair of [L] is still the label attribute of its
    vertex. *)
Theorem s2_monotone (Gin : gref) h0 k j c h c' h' :
  Gin < length (graphs h0) →
  run_to k Gin h0 = Return (c, h) →
  run_to (k + j) Gin h0 = Return (c', h') →
  labels_of c h `prefix_of` labels_of c' h' ∧
  asked c `prefix_of` asked c' ∧
  (∀ u v, v ∈ neighbors (working c' h') u → v ∈ neighbors (working c h) u) ∧
  (∀ v b, (v, b) ∈ labels_of c h → node (working c' h') !! v = Some (Some b)).
Proof.
  intros HGin Hk Hkj.
  pose proof (run_to_inv _ _ _ _ _ _ _ _ HGin Hk) as (_ & _ & _ & _ & _ & Hv & _).
  pose proof (run_to_inv _ _ _ _ _ _ _ _ HGin Hkj)
    as (_ & _ & _ & _ & _ & _ & _ & _ & _ & _ & _ & Hlab & _).
  rewrite run_to_unfold in Hk, Hkj.
  destruct (start Gin h0) as [[c0 h1]| |]; [|done..].
  rewrite steps_add, Hk in Hkj.
  destruct (steps_monotone _ _ _ _ _ Hv Hkj) as (Hl & Ha & Hn).
  split_and!; [done..|]. intros v b Hin. apply Hlab.
  destruct Hl as [rest ->]. apply elem_of_app. by left.
Qed.

End MoreRuns.

(** ** The procedures and the runs on small graphs, again *)

Lemma find_obvious_cuts_KeyError_witness :
  (∃ cuts h', find_obvious_cuts 0 (Some 0) line3_apart = Return (cuts, h')) ∧
  find_obvious_cuts 0 (Some 0) line3_stale = Raise KeyError.
Proof.
  split.
  - refine (proj1 (find_obvious_cuts_KeyError 0 0 line3_apart _) _).
    + by_compute.
    + intros u v Hu Hv.
      assert (Hall : Forall (λ u, Forall (λ v,
                       v ∈ neighbors (graph_at line3_apart 0) u →
                       labeled (graph_at line3_apart 0) u)
                       (list_at line3_apart 0).*1) (list_at line3_apart 0).*1)
        by by_compute.
      exact (proj1 (Forall_forall _ _) (proj1 (Forall_forall _ _) Hall u Hu) v Hv).
  - refine (proj2 (find_obvious_cuts_KeyError 0 0 line3_stale _) _).
    + by_compute.
    + exists 0, 1. split_and!; by_compute.
Defined.


Lemma find_ssp_KeyError_witness :
  find_ssp nx_shortest_path 0 0 line3_TF_unlabeled = Raise KeyError.
Proof.
  apply (find_ssp_KeyError nx_shortest_path 0 0 line3_TF_unlabeled 2).
  - vm_compute. lia.
  - by_compute.
  - by_compute.
  - intros u w Hu Hw.
    assert (Hall : Forall (λ u, Forall (λ w,
                     discordant (graph_at line3_TF_unlabeled 0) u w →
                     answers (nx_shortest_path (graph_at line3_TF_unlabeled 0) u w))
                     (list_at line3_TF_unlabeled 0).*1)
                     (list_at line3_TF_unlabeled 0).*1) by by_compute.
    exact (proj1 (Forall_forall _ _) (proj1 (Forall_forall _ _) Hall u Hu) w Hw).
Defined.

Lemma find_ssp_None_TypeError_witness :
  find_ssp none_shortest_path 0 0 line2_cut = Raise TypeError ∧
  find_mssp none_shortest_path 0 0 line2_cut = Raise TypeError.
Proof.
  apply (find_ssp_None_TypeError none_shortest_path 0 0 line2_cut 0 1).
  - apply Forall_forall. by_compute.
  - intros a b Ha Hb.
    assert (Hall : Forall (λ a, Forall (λ b,
                     discordant (graph_at line2_cut 0) a b →
                     answers (none_shortest_path (graph_at line2_cut 0) a b))
                     (list_at line2_cut 0).*1) (list_at line2_cut 0).*1)
      by by_compute.
    exact (proj1 (Forall_forall _ _) (proj1 (Forall_forall _ _) Hall a Ha) b Hb).
  - by_compute.
  - by_compute.
  - vm_compute. reflexivity.
Defined.

Lemma find_mssp_empty_path_IndexError_witness :
  find_ssp empty_path 0 0 line2_TF = Return (Some [], line2_TF) ∧
  find_mssp empty_path 0 0 line2_TF = Raise IndexError.
Proof.
  apply (find_mssp_empty_path_IndexError empty_path 0 0 line2_TF 0 1).
  - apply Forall_forall. by_compute.
  - intros a b _ _ _. exact I.
  - by_compute.
  - by_compute.
  - reflexivity.
Defined.

Lemma find_mssp_fresh_witness :
  find_mssp nx_shortest_path 0 0 line5_TF = Return (Some 2, line5_TF) ∧
  2 ∈ dom (node (graph_at line5_TF 0)) ∧ 2 ∉ (list_at line5_TF 0).*1.
Proof.
  destruct (find_mssp_fresh nx_shortest_path 0 0 line5_TF)
    as [Hnone|(m & Hm & Hdom & Hout)].
  - by_compute.
  - apply Forall_forall. by_compute.
  - intros u v Hu Hv.
    assert (Hall : Forall (λ u, Forall (λ v,
                     v ∈ neighbors (graph_at line5_TF 0) u →
                     ¬ discordant (graph_at line5_TF 0) u v)
                     (list_at line5_TF 0).*1) (list_at line5_TF 0).*1)
      by by_compute.
    exact (proj1 (Forall_forall _ _) (proj1 (Forall_forall _ _) Hall u Hu) v Hv).
  - apply nx_shortest_path_correct. by_compute.
  - vm_compute in Hnone. discriminate Hnone.
  - assert (Hm' := Hm). vm_compute in Hm'. injection Hm' as <-.
    split_and!; [exact Hm|exact Hdom|exact Hout].
Defined.

Lemma s2_cuts_complete_witness :
  ∃ c h,
    run_to nx_shortest_path below2 in_turn 4 0 line3_heap = Return (c, h) ∧
    asked c = [2; 1] ∧
    wf_graph (working c h) ∧
    (2 ∉ neighbors (working c h) 1) ∧
    0 ∈ neighbors (working c h) 1.
Proof.
  destruct (run_to nx_shortest_path below2 in_turn 4 0 line3_heap)
    as [[c h]| |] eqn:E; [|vm_compute in E; discriminate E..].
  exists c, h. split; [reflexivity|].
  assert (Hlen : 0 < length (graphs line3_heap)) by (vm_compute; lia).
  assert (Hwf : wf_graph (graph_at line3_heap 0)) by by_compute.
  destruct (s2_cuts_complete nx_shortest_path below2 in_turn 0 line3_heap 4 c h
              Hlen Hwf E) as (Hwf' & Hfree & Hkeep).
  assert (Hasked : asked c = [2; 1]).
  { vm_compute in E. by injection E as <- <-. }
  split_and!; [exact Hasked|exact Hwf'| |].
  - intros Hn. destruct (Hfree 1 2) as [Heq _]; [rewrite Hasked..|exact Hn|].
    + by_compute.
    + by_compute.
    + vm_compute in Heq. discriminate Heq.
  - apply Hkeep; by_compute.
Defined.

Lemma s2_result_all_queried_witness :
  ∃ c h,
    run_to nx_shortest_path below2 in_turn 6 0 line3_heap = Return (c, h) ∧
    node (working c h) !! 2 = Some (Some false) ∧
    (2 ∉ neighbors (working c h) 1) ∧
    0 ∈ neighbors (working c h) 1.
Proof.
  destruct (run_to nx_shortest_path below2 in_turn 6 0 line3_heap)
    as [[c h]| |] eqn:E; [|vm_compute in E; discriminate E..].
  exists c, h. split; [reflexivity|].
  assert (Hlen : 0 < length (graphs line3_heap)) by (vm_compute; lia).
  assert (Hwf : wf_graph (graph_at line3_heap 0)) by by_compute.
  destruct (s2_result_all_queried nx_shortest_path below2 in_turn 0 line3_heap
              6 c h Hlen Hwf E) as [Hlab Hedges].
  { intros v Hv. vm_compute in E. injection E as <- <-.
    assert (Hall : set_Forall (λ v, v ∈ [2; 1; 0])
                     (dom (node (graph_at line3_heap 0)))) by by_compute.
    exact (Hall v Hv). }
  split_and!.
  - apply (Hlab 2). by_compute.
  - rewrite Hedges. intros [_ Heq]. vm_compute in Heq. discriminate Heq.
  - apply Hedges. split; by_compute.
Defined.

Lemma s2_queries_at_return_witness :
  ∃ Gret h' k c,
    s2 nx_shortest_path below2 (always 2) 7 0 line3_heap = Return (Gret, h') ∧
    run_to nx_shortest_path below2 (always 2) k 0 line3_heap = Return (c, h') ∧
    length (asked c) = 3 ∧
    labels_of c h' = (λ v, (v, below2 v)) <$> asked c.
Proof.
  destruct (s2 nx_shortest_path below2 (always 2) 7 0 line3_heap)
    as [[Gret h']| |] eqn:E; [|vm_compute in E; discriminate E..].
  assert (Hlen : 0 < length (graphs line3_heap)) by (vm_compute; lia).
  destruct (s2_queries_at_return nx_shortest_path below2 (always 2) 7 0 Gret
              line3_heap h' Hlen E) as (k & c & Hrun & _ & _ & Hcount & Hlog).
  exists Gret, h', k, c. split_and!; [reflexivity|exact Hrun|exact Hcount|exact Hlog].
Defined.

Lemma s2_no_vertex_witness :
  ∃ c h,
    run_to nx_shortest_path below2 in_turn 1 0 no_vertex_heap = Return (c, h) ∧
    asked c = [] ∧ draws c = 0 ∧
    ∀ fuel, s2 nx_shortest_path below2 in_turn (S fuel) 0 no_vertex_heap
            = Return (cG c, h).
Proof.
  destruct (s2_no_vertex nx_shortest_path below2 in_turn 0 no_vertex_heap)
    as (c & h & Hrun & _ & Hasked & Hdraws & _ & Hret).
  - vm_compute. reflexivity.
  - exists c, h. split_and!; [exact Hrun|exact Hasked|exact Hdraws|exact Hret].
Defined.

Lemma s2_fresh_run_labels_all_witness :
  ∃ c h,
    run_to nx_shortest_path below2 in_turn 8 0 line3_heap = Return (c, h) ∧
    at_pc c = Exit ∧
    node (graph_at h (cG c)) !! 2 = Some (Some false).
Proof.
  destruct (s2_fresh_run_labels_all nx_shortest_path below2 in_turn 0 line3_heap)
    as (c & h & Hrun & Hpc & _ & _ & Hlab).
  - vm_compute. lia.
  - exact line3_in_turn_fresh.
  - exists c, h. split_and!; [exact Hrun|exact Hpc|].
    apply (Hlab 2). by_compute.
Defined.

(** The draws 2, 0 on the graph 0 - 1 - 2: the vertex 0, then the vertex 2,
    and the midpoint 1 of the path between them. *)
Lemma line3_draws_20 :
  ∀ k c h v,
    run_to nx_shortest_path below2 draws_20 k 0 line3_heap = Return (c, h) →
    at_pc c = Outer → length (labels_of c h) ≠ cn c →
    choice (draws_20 (draws c)) (nodes (working c h)) = Return v →
    v ∉ asked c.
Proof.
  assert (Hk : ∀ k, k ≤ 6 → ∀ c h v,
            run_to nx_shortest_path below2 draws_20 k 0 line3_heap = Return (c, h) →
            (at_pc c = Outer → length (labels_of c h) ≠ cn c →
             choice (draws_20 (draws c)) (nodes (working c h)) = Return v →
             v ∉ asked c) ∧ (k = 6 → at_pc c = Exit)).
  { intros k Hle c h v E.
    do 7 (destruct k as [|k];
      [vm_compute in E; injection E as <- <-; split;
       [intros Hpc Hlen Hv;
        first [by (vm_compute in Hpc; discriminate Hpc)
              |by (exfalso; apply Hlen; vm_compute; reflexivity)
              |(vm_compute in Hv; injection Hv as <-; by_compute)]
       |by intros [=] || done]|]).
    lia. }
  intros k c h v E. destruct (decide (k ≤ 6)) as [Hle|Hgt].
  - by apply (Hk k Hle c h v E).
  - destruct (run_to nx_shortest_path below2 draws_20 6 0 line3_heap)
      as [[c6 h6]| |] eqn:E6; [|vm_compute in E6; discriminate E6..].
    destruct (Hk 6 (le_n _) c6 h6 v E6) as [_ Hpc6].
    rewrite (run_to_after_Exit _ _ _ 6 k 0 line3_heap c6 h6 E6 (Hpc6 eq_refl))
      in E by lia.
    injection E as <- <-. rewrite (Hpc6 eq_refl). done.
Qed.

Lemma s2_correct_witness :
  ∃ c h,
    run_to nx_shortest_path below2 draws_20 8 0 line3_heap = Return (c, h) ∧
    asked c = [0; 2; 1] ∧
    (∀ fuel, 8 ≤ fuel →
       s2 nx_shortest_path below2 draws_20 fuel 0 line3_heap = Return (cG c, h)) ∧
    node (graph_at h (cG c)) !! 1 = Some (Some true) ∧
    (2 ∉ neighbors (graph_at h (cG c)) 1) ∧
    0 ∈ neighbors (graph_at h (cG c)) 1.
Proof.
  destruct (s2_correct nx_shortest_path below2 draws_20 0 line3_heap)
    as (c & h & Hrun & _ & _ & Hfuel & Hlab & Hedges).
  - vm_compute. lia.
  - by_compute.
  - intros g Hwf. by apply nx_shortest_path_correct.
  - exact line3_draws_20.
  - exists c, h. split_and!.
    + exact Hrun.
    + assert (Hrun' := Hrun). vm_compute in Hrun'. by injection Hrun' as <- <-.
    + exact Hfuel.
    + apply (Hlab 1). by_compute.
    + rewrite Hedges. intros [_ Heq]. vm_compute in Heq. discriminate Heq.
    + apply Hedges. split; by_compute.
Defined.

Lemma s2_monotone_witness :
  ∃ c h c' h',
    run_to nx_shortest_path below2 in_turn 2 0 line3_heap = Return (c, h) ∧
    run_to nx_shortest_path below2 in_turn (2 + 3) 0 line3_heap = Return (c', h') ∧
    labels_of c h = [(2, false)] ∧
    labels_of c h `prefix_of` labels_of c' h' ∧
    node (working c' h') !! 2 = Some (Some false).
Proof.
  destruct (run_to nx_shortest_path below2 in_turn 2 0 line3_heap)
    as [[c h]| |] eqn:E; [|vm_compute in E; discriminate E..].
  destruct (run_to nx_shortest_path below2 in_turn (2 + 3) 0 line3_heap)
    as [[c' h']| |] eqn:E'; [|vm_compute in E'; discriminate E'..].
  exists c, h, c', h'. split; [reflexivity|]. split; [reflexivity|].
  assert (Hlen : 0 < length (graphs line3_heap)) by (vm_compute; lia).
  destruct (s2_monotone nx_shortest_path below2 in_turn 0 line3_heap 2 3 c h c' h'
              Hlen E E') as (Hpre & _ & _ & Hkeep).
  assert (Hl : labels_of c h = [(2, false)]).
  { vm_compute in E. by injection E as <- <-. }
  split_and!; [exact Hl|exact Hpre|].
  apply Hkeep. rewrite Hl. apply list_elem_of_here.
Defined.
